(** * monpy: functor / applicative / monad combinators over dynamic values

    A model of [monpy.py].  Python values are untyped, so the model has one
    universe [Val] of run-time values; the callables that survive inside a
    value (user functions and the closures made by [curry]) are constructors
    of [Val], and [call] runs them.  Callables that a method consumes on the
    spot (the argument of [map], [bind], [fold], the steps of [do]) are Rocq
    functions [Val -> Result Val].  Exceptions are the [Raise] outcome of
    [Result]. *)

From Stdlib Require Import List ZArith Lia Bool String.
Import ListNotations.
Open Scope Z_scope.

Set Implicit Arguments.
Set Warnings "-register-all".

(** ** Outcomes *)

(** The exceptions the library raises itself or provokes in the interpreter.
    [ArityMismatch n m] is
    [Exception(f"function takes {n} positional arguments but {m} were given")],
    [EmptyMmap] and [EmptyLift] the two ["Can only ..."] exceptions. *)
Inductive Exn : Type :=
| ArityMismatch (expected given : Z)
| EmptyMmap
| EmptyLift
| TypeError
| AttributeError
| KeyError (name : string)
| IndexError
| OverflowError
| MemoryError
| UserError (code : Z).

(** [Unknown] is not a Python outcome: the model gives no answer there
    (the recursion of [loop] ran out of fuel, or a field of a [Do] record
    was called as a method with a lambda). *)
Inductive Result (A : Type) : Type :=
| Ok (a : A)
| Raise (e : Exn)
| Unknown.

Arguments Ok {A} a.
Arguments Raise {A} e.
Arguments Unknown {A}.

Definition rbind {A B : Type} (r : Result A) (k : A -> Result B) : Result B :=
  match r with
  | Ok a => k a
  | Raise e => Raise e
  | Unknown => Unknown
  end.

Declare Scope result_scope.
Delimit Scope result_scope with result.
Notation "x <- r ;; k" := (rbind r (fun x => k))
  (at level 61, r at next level, right associativity) : result_scope.
Open Scope result_scope.

(** [for x in xs: yield g(x)], collected. *)
Fixpoint mapM {A B : Type} (g : A -> Result B) (xs : list A)
  : Result (list B) :=
  match xs with
  | [] => Ok []
  | x :: xs' => y <- g x ;; ys <- mapM g xs' ;; Ok (y :: ys)
  end.

(** [for x in xs: acc = step(acc, x)]. *)
Fixpoint foldM {A B : Type} (step : A -> B -> Result A) (acc : A) (xs : list B)
  : Result A :=
  match xs with
  | [] => Ok acc
  | x :: xs' => acc' <- step acc x ;; foldM step acc' xs'
  end.

(** ** Values *)

Section Monpy.

(** Names of the user's functions, and what each does on its positional
    arguments. *)
Variable P : Type.

Inductive Val : Type :=
| VNone
| VInt (z : Z)
| VStr (s : string)
| VBox (obj : Val)
| VMaybe (val : option Val)
| VMany (tup : list Val)
| VDo (state : list (string * Val))
| VPrim (p : P)
  (* [lambda x: _curry_call(f, x, n)], the value of [curry(n)(f)] *)
| VCurry (n : Z) (f : Val)
  (* [lambda x_: _curry_call(f, x_, n - 1, ( *xs, x))] with its captured
     [f], [x], [n] and [xs] *)
| VCurryCall (f x : Val) (n : Z) (xs : list Val).

Variable prim : P -> list Val -> Result Val.

(** ** Currying *)

Definition _curry_call (call : Val -> list Val -> Result Val)
    (f x : Val) (n : Z) (xs : list Val) : Result Val :=
  if n =? 1 then call f (x :: xs)
  else Ok (VCurryCall f x n xs).

(** [c( *args)].  The two lambdas take one positional argument. *)
Fixpoint call (c : Val) (args : list Val) {struct c} : Result Val :=
  match c with
  | VPrim p => prim p args
  | VCurry n f =>
      match args with
      | [x] => _curry_call call f x n []
      | _ => Raise TypeError
      end
  | VCurryCall f x n xs =>
      match args with
      | [x_] => _curry_call call f x_ (n - 1) (xs ++ [x])
      | _ => Raise TypeError
      end
  | _ => Raise TypeError
  end.

Definition curry (n : Z) (f : Val) : Val := VCurry n f.

Definition _un_curry_call (f : Val) (xs : list Val) (n : Z) : Result Val :=
  if negb (Z.of_nat (List.length xs) =? n)
  then Raise (ArityMismatch n (Z.of_nat (List.length xs)))
  else foldM (fun _ x => call f [x]) f xs.

Definition un_curry (n : Z) (f : Val) (xs : list Val) : Result Val :=
  _un_curry_call f xs n.

(** ** Records, attributes and classes *)

Definition Dict : Type := list (string * Val).

Fixpoint dict_get (d : Dict) (k : string) : option Val :=
  match d with
  | [] => None
  | (k', v) :: d' => if String.eqb k' k then Some v else dict_get d' k
  end.

(** [{**d, k: v}]: an existing key keeps its place and takes the new value,
    a new key goes last. *)
Fixpoint dict_set (d : Dict) (k : string) (v : Val) : Dict :=
  match d with
  | [] => [(k, v)]
  | (k', v') :: d' =>
      if String.eqb k' k then (k', v) :: d' else (k', v') :: dict_set d' k v
  end.

Definition keys (d : Dict) : list string := List.map fst d.

(** The three decorated classes whose methods run their callable at once.
    [Func] and [Async] keep it for later and are not values of the model. *)
Inductive Cls : Type := Box | Maybe | Many.

Definition Cls_eqb (a b : Cls) : bool :=
  match a, b with
  | Box, Box | Maybe, Maybe | Many, Many => true
  | _, _ => false
  end.

Definition type_of (v : Val) : option Cls :=
  match v with
  | VBox _ => Some Box
  | VMaybe _ => Some Maybe
  | VMany _ => Some Many
  | _ => None
  end.

(** [issubclass(type(v), mon)] *)
Definition issubclass_type (v : Val) (mon : Cls) : bool :=
  match type_of v with
  | Some c => Cls_eqb c mon
  | None => false
  end.

(** [Do.__getattribute__]: the field of that name.  Under the names
    ["do"], ["__init__"] and ["__getattribute__"] it hands out the state
    dictionary or a method, which are no values of the model. *)
Definition Do_getattribute (state : Dict) (name : string) : Result Val :=
  if existsb (String.eqb name) ["do"; "__init__"; "__getattribute__"]%string
  then Unknown
  else
    match dict_get state name with
    | Some v => Ok v
    | None => Raise (KeyError name)
    end.

(** [s.do]: the state of a record; on an instance of a decorated class it is
    the class method [do], which is no mapping. *)
Definition attr_do (s : Val) : Result Dict :=
  match s with
  | VDo state => Ok state
  | VBox _ | VMaybe _ | VMany _ => Raise TypeError
  | _ => Raise AttributeError
  end.

(** [s.<name>] as the steps of a do block read a field. *)
Definition getattr (s : Val) (name : string) : Result Val :=
  match s with
  | VDo state => Do_getattribute state name
  | _ => Raise AttributeError
  end.

(** [v.obj] *)
Definition attr_obj (v : Val) : Result Val :=
  match v with
  | VBox obj => Ok obj
  | VDo state => Do_getattribute state "obj"
  | _ => Raise AttributeError
  end.

Definition chars (s : string) : list Val :=
  List.map (fun c => VStr (String c EmptyString)) (list_ascii_of_string s).

(** [for x in v.tup], the elements in order. *)
Definition attr_tup (v : Val) : Result (list Val) :=
  match v with
  | VMany tup => Ok tup
  | VDo state =>
      t <- Do_getattribute state "tup" ;;
      match t with
      | VMany tup => Ok tup
      | VStr s => Ok (chars s)
      | _ => Raise TypeError
      end
  | _ => Raise AttributeError
  end.

(** ** Box *)

Definition Box_map (obj : Val) (f : Val -> Result Val) : Result Val :=
  y <- f obj ;; Ok (VBox y).

Definition Box_wrap (x : Val) : Val := VBox x.

Definition Box_apply (obj other : Val) : Result Val :=
  x <- attr_obj other ;; y <- call obj [x] ;; Ok (VBox y).

Definition Box_bind (obj : Val) (f : Val -> Result Val) : Result Val := f obj.

(** [self.unwrap()] *)
Definition Box_unwrap (obj : Val) : Val := obj.

(** ** Maybe *)

Definition Maybe_map (val : option Val) (f : Val -> Result Val) : Result Val :=
  match val with
  | None => Ok (VMaybe None)
  | Some x => y <- f x ;; Ok (VMaybe (Some y))
  end.

Definition Maybe_wrap (x : Val) : Val := VMaybe (Some x).

(** When [other.val] is neither [()] nor [(x,)] no case matches and the
    method returns [None]. *)
Definition Maybe_apply (val : option Val) (other : Val) : Result Val :=
  match val with
  | None => Ok (VMaybe None)
  | Some f =>
      match other with
      | VMaybe None => Ok (VMaybe None)
      | VMaybe (Some x) => y <- call f [x] ;; Ok (VMaybe (Some y))
      | VDo state => _ <- Do_getattribute state "val" ;; Ok VNone
      | _ => Raise AttributeError
      end
  end.

Definition Maybe_bind (val : option Val) (f : Val -> Result Val) : Result Val :=
  match val with
  | None => Ok (VMaybe None)
  | Some x => f x
  end.

(** [self.otherwise(alt)] *)
Definition Maybe_otherwise (val : option Val) (alt : Val) : Val :=
  match val with
  | None => alt
  | Some x => x
  end.

(** ** Many *)

Definition Many_fold (tup : list Val) (initial : Val)
    (fold : Val -> Val -> Result Val) : Result Val :=
  foldM fold initial tup.

Definition Many_map (tup : list Val) (f : Val -> Result Val) : Result Val :=
  ys <- mapM f tup ;; Ok (VMany ys).

Definition Many_wrap (x : Val) : Val := VMany [x].

(** [(f(x) for f in self.tup for x in other.tup)]: [other.tup] is read once
    per function. *)
Fixpoint Many_apply_gen (tup : list Val) (other : Val) : Result (list Val) :=
  match tup with
  | [] => Ok []
  | f :: tup' =>
      xs <- attr_tup other ;;
      row <- mapM (fun x => call f [x]) xs ;;
      rest <- Many_apply_gen tup' other ;;
      Ok (row ++ rest)
  end.

Definition Many_apply (tup : list Val) (other : Val) : Result Val :=
  ys <- Many_apply_gen tup other ;; Ok (VMany ys).

(** [(x for mx in map(f, self.tup) for x in mx.tup)] *)
Fixpoint Many_bind_gen (tup : list Val) (f : Val -> Result Val)
  : Result (list Val) :=
  match tup with
  | [] => Ok []
  | x :: tup' =>
      mx <- f x ;;
      row <- attr_tup mx ;;
      rest <- Many_bind_gen tup' f ;;
      Ok (row ++ rest)
  end.

Definition Many_bind (tup : list Val) (f : Val -> Result Val) : Result Val :=
  ys <- Many_bind_gen tup f ;; Ok (VMany ys).

(** [len(self)] *)
Definition Many_len (tup : list Val) : Z := Z.of_nat (List.length tup).

(** [self[item]] for an integer [item]: a negative index counts from the
    end, an index outside the tuple is an [IndexError].  Slices are no
    values of the model; any other value is a [TypeError]. *)
Definition Many_getitem (tup : list Val) (item : Val) : Result Val :=
  match item with
  | VInt i =>
      let n := Z.of_nat (List.length tup) in
      let j := if i <? 0 then i + n else i in
      if (j <? 0) || (n <=? j) then Raise IndexError
      else
        match nth_error tup (Z.to_nat j) with
        | Some x => Ok x
        | None => Raise IndexError
        end
  | _ => Raise TypeError
  end.



(** ** Func

    A [Func] object holds one callable and calls it; it is modelled by what
    that call does.  [Func] objects are no values of [Val], so the function
    given to [bind] hands back such a call. *)

Definition Func : Type := Val -> Result Val.

(** [self(arg)] *)
Definition Func_call (self : Func) (arg : Val) : Result Val := self arg.

(** [Func(lambda arg: f(self(arg)))] *)
Definition Func_map (self : Func) (f : Val -> Result Val) : Func :=
  fun arg => y <- Func_call self arg ;; f y.

(** [Func(lambda arg: x)] *)
Definition Func_wrap (x : Val) : Func := fun arg => Ok x.

(** [Func(lambda arg: self(arg)(other(arg)))] *)
Definition Func_apply (self other : Func) : Func :=
  fun arg =>
    h <- Func_call self arg ;; x <- Func_call other arg ;; call h [x].

(** [Func(lambda arg: f(self(arg))(arg))] *)
Definition Func_bind (self : Func) (f : Val -> Result Func) : Func :=
  fun arg => y <- Func_call self arg ;; h <- f y ;; Func_call h arg.

(** ** Method dispatch *)

(** A method looked up on a [Do] record is the field of that name. *)
Definition Do_method (state : Dict) (name : string) : Result Val :=
  v <- Do_getattribute state name ;;
  match v with
  | VPrim _ | VCurry _ _ | VCurryCall _ _ _ _ => Unknown
  | _ => Raise TypeError
  end.

Definition wrap (cls : Cls) (x : Val) : Val :=
  match cls with
  | Box => Box_wrap x
  | Maybe => Maybe_wrap x
  | Many => Many_wrap x
  end.

(** [self.map(f)] *)
Definition obj_map (self : Val) (f : Val -> Result Val) : Result Val :=
  match self with
  | VBox obj => Box_map obj f
  | VMaybe val => Maybe_map val f
  | VMany tup => Many_map tup f
  | VDo state => Do_method state "map"
  | _ => Raise AttributeError
  end.

(** [self.apply(other)] *)
Definition obj_apply (self other : Val) : Result Val :=
  match self with
  | VBox obj => Box_apply obj other
  | VMaybe val => Maybe_apply val other
  | VMany tup => Many_apply tup other
  | VDo state => m <- Do_getattribute state "apply" ;; call m [other]
  | _ => Raise AttributeError
  end.

(** [self.bind(f)] *)
Definition obj_bind (self : Val) (f : Val -> Result Val) : Result Val :=
  match self with
  | VBox obj => Box_bind obj f
  | VMaybe val => Maybe_bind val f
  | VMany tup => Many_bind tup f
  | VDo state => Do_method state "bind"
  | _ => Raise AttributeError
  end.

(** ** The class methods added by the decorators *)

Definition len {A : Type} (xs : list A) : Z := Z.of_nat (List.length xs).

(** [xs[i]] for an index of [range(len(xs))]. *)
Definition index {A : Type} (xs : list A) (i : nat) : Result A :=
  match nth_error xs i with
  | Some x => Ok x
  | None => Raise IndexError
  end.

(** The index-sized integers of a 64-bit CPython, from [-2^63] to
    [2^63 - 1], and the longest list it allots, of [(2^63 - 1) / 8]
    items. *)
Definition ssize_min : Z := -9223372036854775808.
Definition ssize_max : Z := 9223372036854775807.
Definition list_max : Z := 1152921504606846975.

(** [[None] * n]: a count that is no integer is a [TypeError], one that
    does not fit an index an [OverflowError], one beyond the longest list
    a [MemoryError]; a negative count gives the empty list.  (Whether the
    machine has the memory for a list within the limit is not modelled.) *)
Definition none_times (n : Val) : Result (list Val) :=
  match n with
  | VInt z =>
      if (z <? ssize_min) || (ssize_max <? z) then Raise OverflowError
      else if list_max <? z then Raise MemoryError
      else Ok (repeat VNone (Z.to_nat z))
  | _ => Raise TypeError
  end.

(** [layer += n] on an integer [layer]. *)
Definition int_add (layer : Z) (n : Val) : Result Z :=
  match n with
  | VInt z => Ok (layer + z)
  | _ => Raise TypeError
  end.

Definition Update : Type := Val -> Val -> Result Val.

(** [lambda y_, x: y_(x)] *)
Definition update_call : Update := fun y_ x => call y_ [x].

(** [lambda y_, x, u=u: x.map(lambda x_, u=u: u(y_, x_))] *)
Definition update_arg (u : Update) : Update :=
  fun y_ x => obj_map x (fun x_ => u y_ x_).

(** [lambda y_, x, u=u: y_.map(lambda y__, u=u: u(y__, x))] *)
Definition update_acc (u : Update) : Update :=
  fun y_ x => obj_map y_ (fun y__ => u y__ x).

(** One round of [for i in range(flevs_len)] on the pair [(layer, y)]. *)
Definition mmap_step (functor_levels args : list Val)
    (st : Z * Val) (i : nat) : Result (Z * Val) :=
  let '(layer, y) := st in
  lev <- index functor_levels i ;;
  own <- none_times lev ;;
  let update := fold_left (fun u _ => update_arg u) own update_call in
  acc <- none_times (VInt layer) ;;
  let update := fold_left (fun u _ => update_acc u) acc update in
  layer <- int_add layer lev ;;
  x <- index args i ;;
  y <- update y x ;;
  Ok (layer, y).

Definition mmap_inner (functor_levels : list Val) (f : Val) (args : list Val)
  : Result Val :=
  let flevs_len := len functor_levels in
  if negb (len args =? flevs_len)
  then Raise (ArityMismatch flevs_len (len args))
  else
    st <- foldM (mmap_step functor_levels args)
                (0, curry flevs_len f)
                (seq 0 (List.length functor_levels)) ;;
    Ok (snd st).

(** [cls.mmap( *functor_levels)]; the class is not used. *)
Definition mmap (functor_levels : list Val)
  : Result (Val -> list Val -> Result Val) :=
  if len functor_levels <=? 0 then Raise EmptyMmap
  else Ok (fun f args => mmap_inner functor_levels f args).

(** [t(f)( *args)] for the transformer [t] that [mmap] or [lift] returned,
    if it returned one. *)
Definition transform (t : Result (Val -> list Val -> Result Val))
    (f : Val) (args : list Val) : Result Val :=
  h <- t ;; h f args.

(** One round of [for i in range(aflags_len)]. *)
Definition lift_step (applicative_flags : list bool) (args : list Val)
    (y : Val) (i : nat) : Result Val :=
  flag <- index applicative_flags i ;;
  if flag : bool
  then x <- index args i ;; obj_apply y x
  else obj_map y (fun f_ => x <- index args i ;; call f_ [x]).

Definition lift_inner (cls : Cls) (applicative_flags : list bool)
    (f : Val) (args : list Val) : Result Val :=
  let aflags_len := len applicative_flags in
  if negb (len args =? aflags_len)
  then Raise (ArityMismatch aflags_len (len args))
  else
    foldM (lift_step applicative_flags args)
          (wrap cls (curry aflags_len f))
          (seq 0 (List.length applicative_flags)).

(** [cls.lift( *applicative_flags)] *)
Definition lift (cls : Cls) (applicative_flags : list bool)
  : Result (Val -> list Val -> Result Val) :=
  if len applicative_flags <=? 0 then Raise EmptyLift
  else Ok (fun f args => lift_inner cls applicative_flags f args).

(** A line of a do block: its name and the step, from the record to a
    wrapped value. *)
Definition Line : Type := string * (Val -> Result Val).

(** [do == None] *)
Definition is_None (v : Val) : bool :=
  match v with VNone => true | _ => false end.

(** [Do( **state)].  [Do.__init__(self, **state)] cannot take a keyword
    [self]. *)
Definition Do_new (state : Dict) : Result Val :=
  match dict_get state "self" with
  | Some _ => Raise TypeError
  | None => Ok (VDo state)
  end.

(** [lambda s, line=line, name=name:
       line(s).map(lambda x, name=name: Do( **{**s.do, name: x}))] *)
Definition do_line (l : Line) (s : Val) : Result Val :=
  let '(name, line) := l in
  m <- line s ;;
  obj_map m (fun x => state <- attr_do s ;; Do_new (dict_set state name x)).

(** [cls.do(do=do_, **kwargs)]; [kwargs] are the keyword arguments that
    Python leaves for it, so none is named [cls] or [do]. *)
Definition do (cls : Cls) (do_ : Val) (kwargs : list Line) : Result Val :=
  let do_ := if is_None do_ then wrap cls (VDo []) else do_ in
  foldM (fun state l => obj_bind state (do_line l)) do_ kwargs.

(** The local function [while_do] of [loop]; [fuel] bounds its recursion. *)
Fixpoint while_do (fuel : nat) (cls : Cls) (predicate : Val -> Result bool)
    (kwargs : list Line) (s : Val) : Result Val :=
  match fuel with
  | O => Unknown
  | S fuel' =>
      b <- predicate s ;;
      if b : bool
      then
        state <- do cls (wrap cls s) kwargs ;;
        obj_bind state (while_do fuel' cls predicate kwargs)
      else Ok (wrap cls s)
  end.

(** [cls.loop(predicate, do=do_, **kwargs)] *)
Definition loop (fuel : nat) (cls : Cls) (predicate : Val -> Result bool)
    (do_ : Val) (kwargs : list Line) : Result Val :=
  let do_ := if is_None do_ then wrap cls (VDo []) else do_ in
  obj_bind do_ (while_do fuel cls predicate kwargs).

Definition flatten (fuel : nat) (mon : Cls) (expr : Val) : Result Val :=
  start <- do mon VNone [("x"%string, fun s => Ok expr)] ;;
  m <- loop fuel mon
         (fun s => x <- getattr s "x" ;; Ok (issubclass_type x mon))
         start
         [("x"%string, fun s => getattr s "x")] ;;
  obj_map m (fun s => getattr s "x").

End Monpy.

Arguments VNone {P}.
Arguments VInt {P} z.
Arguments VStr {P} s.
Arguments VBox {P} obj.
Arguments VMaybe {P} val.
Arguments VMany {P} tup.
Arguments VDo {P} state.
Arguments VPrim {P} p.
Arguments VCurry {P} n f.
Arguments VCurryCall {P} f x n xs.
Arguments Dict P : clear implicits.
Arguments Line P : clear implicits.
Arguments Update P : clear implicits.
Arguments Func P : clear implicits.

(** ** The demonstration program

    The functions of [example.py] and of the spec's test properties. *)

Module Example.

Inductive Fn : Type :=
| plus        (* [def f(x, y): return x + y], before it is lifted *)
| g           (* [def g(x, y, z): return (x * z) + (y * z)] *)
| minus       (* [lambda x, y: x - y] *)
| succ        (* [lambda x: x + 1] *)
| neg         (* [lambda x: -x] *)
| x_x10.      (* [lambda x: Many(x, x * 10)] *)

Definition V : Type := Val Fn.

Definition sem (p : Fn) (args : list V) : Result V :=
  match p, args with
  | plus, [VInt x; VInt y] => Ok (VInt (x + y))
  | g, [VInt x; VInt y; VInt z] => Ok (VInt (x * z + y * z))
  | minus, [VInt x; VInt y] => Ok (VInt (x - y))
  | succ, [VInt x] => Ok (VInt (x + 1))
  | neg, [VInt x] => Ok (VInt (- x))
  | x_x10, [VInt x] => Ok (VMany [VInt x; VInt (x * 10)])
  | _, _ => Raise TypeError
  end.

(** [Many( *zs)] of integers. *)
Definition ints (zs : list Z) : V := VMany (List.map (fun z => VInt z) zs).

(** [Many.do(x = ..., y = ..., z = ...).map(lambda s: s.z)] of [main]. *)
Definition main_do : Result V :=
  m <- do Many VNone
         [("x"%string, fun s => Ok (ints [0; 2]));
          ("y"%string, fun s => Ok (ints [0; 1]));
          ("z"%string, fun s =>
             x <- getattr s "x" ;;
             y <- getattr s "y" ;;
             z <- call sem (VPrim g) [x; y; VInt (-1)] ;;
             Ok (wrap Many z))] ;;
  obj_map m (fun s => getattr s "z").

(** The argument of [flatten] in [main]. *)
Definition main_nested : V := VMany [VInt 0; ints [1; 2]; ints [3; 4]].

End Example.

(** ** Reference functions of the statements *)

Section Reference.

Variable P : Type.

(** [x.map(lambda a: a.map( ... k(leaf) ... ))] through [n] layers, the
    outermost first. *)
Fixpoint nest_map (n : nat) (x : Val P) (k : Val P -> Result (Val P))
  : Result (Val P) :=
  match n with
  | O => k x
  | S n' => obj_map x (fun x' => nest_map n' x' k)
  end.

(** The elements under the layers of class [mon] of [v], left to right.  A
    value of another type is an element, whatever it holds. *)
Fixpoint leaves (mon : Cls) (v : Val P) : list (Val P) :=
  match v with
  | VBox obj => if Cls_eqb Box mon then leaves mon obj else [v]
  | VMaybe val =>
      if Cls_eqb Maybe mon
      then match val with Some x => leaves mon x | None => [] end
      else [v]
  | VMany tup => if Cls_eqb Many mon then flat_map (leaves mon) tup else [v]
  | _ => [v]
  end.

(** How many layers of class [mon] lie over the deepest element of [v]. *)
Fixpoint depth (mon : Cls) (v : Val P) : nat :=
  match v with
  | VBox obj => if Cls_eqb Box mon then S (depth mon obj) else O
  | VMaybe val =>
      if Cls_eqb Maybe mon
      then S (match val with Some x => depth mon x | None => O end)
      else O
  | VMany tup =>
      if Cls_eqb Many mon
      then S (fold_right (fun x d => Nat.max (depth mon x) d) O tup)
      else O
  | _ => O
  end.

(** One flat container of class [mon] around the given elements; a [Box]
    holds one, a [Maybe] at most one. *)
Definition of_leaves (mon : Cls) (xs : list (Val P)) : Val P :=
  match mon with
  | Box => VBox (hd VNone xs)
  | Maybe => VMaybe (hd_error xs)
  | Many => VMany xs
  end.

(** The elements of a container. *)
Definition elems (m : Val P) : list (Val P) :=
  match m with
  | VBox obj => [obj]
  | VMaybe (Some x) => [x]
  | VMany tup => tup
  | _ => []
  end.

(** The elements of a container replaced one for one. *)
Definition map_val (h : Val P -> Val P) (m : Val P) : Val P :=
  match m with
  | VBox obj => VBox (h obj)
  | VMaybe val => VMaybe (option_map h val)
  | VMany tup => VMany (List.map h tup)
  | _ => m
  end.

(** [lambda x: Many(x, x * 10)] *)
Definition x_and_x10 (x : Val P) : Result (Val P) :=
  match x with
  | VInt z => Ok (VMany [VInt z; VInt (z * 10)])
  | _ => Raise TypeError
  end.

Definition is_int (v : Val P) : bool :=
  match v with VInt _ => true | _ => false end.

(** A depth that is negative or no integer. *)
Definition invalid_depth (v : Val P) : bool :=
  match v with VInt z => z <? 0 | _ => true end.

(** The record [Do(x = a)]. *)
Definition Do_x (a : Val P) : Val P := VDo [("x"%string, a)].

(** The records the loop of [flatten] ends with when it starts from the
    record [s]. *)
Definition flatten_rows (mon : Cls) (s : Val P) : list (Val P) :=
  match getattr s "x" with
  | Ok a => List.map Do_x (leaves mon a)
  | _ => []
  end.

Variable prim : P -> list (Val P) -> Result (Val P).

(** What [lift] does with one argument and its flag. *)
Definition lift_fold (y : Val P) (fx : bool * Val P) : Result (Val P) :=
  let '(flag, x) := fx in
  if flag : bool then obj_apply prim y x
  else obj_map y (fun f_ => call prim f_ [x]).


(** [c(a1)(a2)...(an)] *)
Definition call_chain (c : Val P) (args : list (Val P)) : Result (Val P) :=
  foldM (fun k a => call prim k [a]) c args.

(** The last element moved to the front. *)
Definition last_first (xs : list (Val P)) : list (Val P) :=
  match rev xs with
  | [] => []
  | x :: r => x :: rev r
  end.

(** What the chain of [curry(k)(f)] has become after the arguments
    [given]: [curry(k)(f)] itself, or the closure of the last one. *)
Definition clo (k : Z) (f : Val P) (given : list (Val P)) : Val P :=
  match rev given with
  | [] => VCurry k f
  | x :: r => VCurryCall f x (k - len r) (rev r)
  end.

(** [h] on the elements [n] layers down, where nothing can fail. *)
Fixpoint nest_val (n : nat) (h : Val P -> Val P) (x : Val P) : Val P :=
  match n with
  | O => h x
  | S n' => map_val (nest_val n' h) x
  end.

(** [x] is a nest of [Box], [Maybe] and [Many] containers at least [n]
    layers deep everywhere. *)
Fixpoint nested (n : nat) (x : Val P) : bool :=
  match n with
  | O => true
  | S n' =>
      match x with
      | VBox obj => nested n' obj
      | VMaybe None => true
      | VMaybe (Some a) => nested n' a
      | VMany tup => forallb (nested n') tup
      | _ => false
      end
  end.

(** [broadcast] with a function that cannot fail. *)
Fixpoint bval (levels : list nat) (args : list (Val P))
    (h : list (Val P) -> Val P) : Val P :=
  match levels, args with
  | n :: levels', x :: args' =>
      nest_val n (fun a => bval levels' args' (fun rest => h (a :: rest))) x
  | _, _ => h []
  end.

(** A depth as [mmap] receives it. *)
Definition depth_val (n : nat) : Val P := VInt (Z.of_nat n).

(** The contract of [mmap] in the spec's words: [f] on the elements of all
    the arguments, in argument order, the layers of the first argument
    outermost. *)
Fixpoint broadcast (levels : list nat) (args : list (Val P))
    (k : list (Val P) -> Result (Val P)) : Result (Val P) :=
  match levels, args with
  | n :: levels', x :: args' =>
      nest_map n x
        (fun a => broadcast levels' args' (fun rest => k (a :: rest)))
  | _, _ => k []
  end.


(** One method call in a chain on a container. *)
Inductive Op : Type :=
| OpMap (f : Val P -> Result (Val P))
| OpBind (f : Val P -> Result (Val P))
| OpApply (other : Val P).

Definition run_op (m : Val P) (op : Op) : Result (Val P) :=
  match op with
  | OpMap f => obj_map m f
  | OpBind f => obj_bind m f
  | OpApply other => obj_apply prim m other
  end.

(** [Maybe()] and [Many()]. *)
Definition is_empty (m : Val P) : bool :=
  match m with
  | VMaybe None | VMany [] => true
  | _ => false
  end.

(** A value with no methods and no fields: [None], an integer, a string or
    a function. *)
Definition is_plain (x : Val P) : bool :=
  match x with
  | VNone | VInt _ | VStr _ | VPrim _ | VCurry _ _ | VCurryCall _ _ _ _ =>
      true
  | _ => false
  end.

(** The names under which [Do.__getattribute__] does not look in the
    state. *)
Definition reserved (name : string) : bool :=
  existsb (String.eqb name) ["do"; "__init__"; "__getattribute__"]%string.

End Reference.

(** ** Properties *)

(** Arithmetic on the lengths of lists. *)
Ltac len_lia :=
  unfold len in *; cbn [app List.length] in *;
  rewrite ?length_app in *; cbn [List.length] in *; lia.

Section ResultFacts.

Context {A B C : Type}.

Lemma rbind_assoc (r : Result A) (k : A -> Result B) (h : B -> Result C) :
  rbind (rbind r k) h = rbind r (fun a => rbind (k a) h).
Proof. destruct r; reflexivity. Qed.

Lemma rbind_ext (r : Result A) (k k' : A -> Result B) :
  (forall a, k a = k' a) -> rbind r k = rbind r k'.
Proof. intros E. destruct r; simpl; auto. Qed.

Lemma rbind_Ok_r (r : Result A) : rbind r Ok = r.
Proof. destruct r; reflexivity. Qed.

Lemma mapM_app (h : A -> Result B) (xs ys : list A) :
  mapM h (xs ++ ys) =
  (a <- mapM h xs ;; b <- mapM h ys ;; Ok (a ++ b)).
Proof.
  induction xs as [|x xs IH]; simpl.
  - destruct (mapM h ys); reflexivity.
  - rewrite IH. destruct (h x); simpl; trivial.
    destruct (mapM h xs); simpl; trivial.
    destruct (mapM h ys); reflexivity.
Qed.

Lemma mapM_map (k : C -> A) (h : A -> Result B) (xs : list C) :
  mapM h (List.map k xs) = mapM (fun c => h (k c)) xs.
Proof.
  induction xs as [|x xs IH]; simpl; trivial.
  now rewrite IH.
Qed.

Lemma mapM_ext (h h' : A -> Result B) (xs : list A) :
  (forall a, In a xs -> h a = h' a) -> mapM h xs = mapM h' xs.
Proof.
  induction xs as [|x xs IH]; simpl; intros E; trivial.
  rewrite (E x), IH by auto. reflexivity.
Qed.

Lemma mapM_pure (h : A -> B) (xs : list A) :
  mapM (fun a => Ok (h a)) xs = Ok (List.map h xs).
Proof.
  induction xs as [|x xs IH]; simpl; trivial.
  now rewrite IH.
Qed.

Lemma mapM_nth_error (h : A -> Result B) (xs : list A) :
  forall (ys : list B) (n : nat) (a : A),
    mapM h xs = Ok ys -> nth_error xs n = Some a ->
    exists b, h a = Ok b /\ nth_error ys n = Some b.
Proof.
  induction xs as [|x xs IH]; intros ys n a E Hn.
  - now destruct n.
  - simpl in E. destruct (h x) as [y| |] eqn:Ex; try discriminate.
    simpl in E. destruct (mapM h xs) as [ys'| |]; try discriminate.
    injection E as <-. destruct n as [|n]; simpl in *.
    + injection Hn as <-. eauto.
    + eauto.
Qed.

Lemma foldM_app (step : A -> B -> Result A) (acc : A) (xs ys : list B) :
  foldM step acc (xs ++ ys) = (a <- foldM step acc xs ;; foldM step a ys).
Proof.
  revert acc. induction xs as [|x xs IH]; simpl; intros acc; trivial.
  destruct (step acc x); simpl; auto.
Qed.

Lemma foldM_pure (step : A -> B -> A) (acc : A) (xs : list B) :
  foldM (fun a b => Ok (step a b)) acc xs = Ok (fold_left step xs acc).
Proof.
  revert acc. induction xs as [|x xs IH]; simpl; intros acc; auto.
Qed.

End ResultFacts.

Section ManyFacts.

Variable P : Type.
Variable prim : P -> list (Val P) -> Result (Val P).

Lemma Many_apply_gen_prod (tup xs : list (Val P)) :
  Many_apply_gen prim tup (VMany xs) =
  mapM (fun p => call prim (fst p) [snd p]) (list_prod tup xs).
Proof.
  induction tup as [|f tup IH]; simpl; trivial.
  rewrite mapM_app, mapM_map, IH. reflexivity.
Qed.

Lemma list_prod_nth_error {A B : Type} (fs : list A) (xs : list B) :
  forall (i j : nat) (f : A) (x : B),
    nth_error fs i = Some f -> nth_error xs j = Some x ->
    nth_error (list_prod fs xs) (i * List.length xs + j) = Some (f, x).
Proof.
  induction fs as [|f0 fs IH]; intros i j f x Hi Hj; [now destruct i|].
  assert (Hlt : (j < List.length xs)%nat)
    by (apply nth_error_Some; congruence).
  cbn [list_prod]. destruct i as [|i]; simpl in Hi.
  - injection Hi as ->. simpl.
    rewrite nth_error_app1 by now rewrite length_map.
    now rewrite nth_error_map, Hj.
  - rewrite nth_error_app2 by (rewrite length_map; simpl; lia).
    rewrite length_map.
    replace (S i * List.length xs + j - List.length xs)%nat
      with (i * List.length xs + j)%nat by (simpl; lia).
    now apply IH.
Qed.

(** C3.  [Many.apply] lists the results over the cartesian product with the
    functions in the outer loop and the values in the inner one:
    [fs.apply(xs)] calls [f(x)] along [list_prod fs xs] and keeps that
    order, so that the result of the [i]-th function on the [j]-th value
    stands at position [i * len(xs) + j]; and
    [Many(f1, f2).apply(Many(a, b))] is
    [Many(f1(a), f1(b), f2(a), f2(b))]. *)
Theorem Many_apply_cartesian (tup xs : list (Val P)) :
  Many_apply prim tup (VMany xs) =
    (ys <- mapM (fun p => call prim (fst p) [snd p]) (list_prod tup xs) ;;
     Ok (VMany ys))
  /\ (forall (i j : nat) (f x : Val P) (ys : list (Val P)),
        nth_error tup i = Some f -> nth_error xs j = Some x ->
        Many_apply prim tup (VMany xs) = Ok (VMany ys) ->
        exists y, call prim f [x] = Ok y
                  /\ nth_error ys (i * List.length xs + j) = Some y)
  /\ (forall f1 f2 a b : Val P,
        Many_apply prim [f1; f2] (VMany [a; b]) =
          (y1 <- call prim f1 [a] ;; y2 <- call prim f1 [b] ;;
           y3 <- call prim f2 [a] ;; y4 <- call prim f2 [b] ;;
           Ok (VMany [y1; y2; y3; y4]))).
Proof.
  split; [|split].
  - unfold Many_apply. now rewrite Many_apply_gen_prod.
  - intros i j f x ys Hi Hj E. unfold Many_apply in E.
    rewrite Many_apply_gen_prod in E.
    destruct (mapM _ (list_prod tup xs)) as [ys'| |] eqn:Eprod;
      try discriminate.
    injection E as <-.
    apply (mapM_nth_error _ _ _ Eprod (list_prod_nth_error _ _ _ _ Hi Hj)).
  - intros f1 f2 a b. unfold Many_apply. simpl.
    destruct (call prim f1 [a]); simpl; trivial.
    destruct (call prim f1 [b]); simpl; trivial.
    destruct (call prim f2 [a]); simpl; trivial.
    destruct (call prim f2 [b]); reflexivity.
Qed.

Lemma Many_bind_gen_concat (tup : list (Val P))
    (f : Val P -> Result (Val P)) :
  Many_bind_gen tup f =
  (rows <- mapM (fun x => mx <- f x ;; attr_tup mx) tup ;;
   Ok (List.concat rows)).
Proof.
  induction tup as [|x tup IH]; simpl; trivial.
  rewrite IH. destruct (f x) as [mx| |]; simpl; trivial.
  destruct (attr_tup mx); simpl; trivial.
  destruct (mapM _ tup); reflexivity.
Qed.

(** C4.  [Many.bind] is a flat map: [m.bind(f)] holds the elements of
    [f(x).tup] for each [x] of [m], in order, one run after the other; so
    [Many(1, 2).bind(lambda x: Many(x, x * 10))] is [Many(1, 10, 2, 20)]. *)
Theorem Many_bind_flat_map (tup : list (Val P)) (f : Val P -> Result (Val P)) :
  Many_bind tup f =
    (rows <- mapM (fun x => mx <- f x ;; attr_tup mx) tup ;;
     Ok (VMany (List.concat rows)))
  /\ Many_bind [VInt 1; VInt 2] (@x_and_x10 P) =
       Ok (VMany [VInt 1; VInt 10; VInt 2; VInt 20]).
Proof.
  split; [|reflexivity].
  unfold Many_bind. rewrite Many_bind_gen_concat.
  destruct (mapM _ tup); reflexivity.
Qed.

(** C10.  [Many.fold] is the left fold in sequence order: on the empty
    sequence it returns the initial value, a last element [x] is folded in
    after all the others, and with a function [F] that always returns, the
    result is [fold_left F] from the initial value. *)
Theorem Many_fold_left (tup : list (Val P)) (initial : Val P)
    (fold : Val P -> Val P -> Result (Val P)) :
  Many_fold [] initial fold = Ok initial
  /\ (forall x, Many_fold (tup ++ [x]) initial fold =
                (y <- Many_fold tup initial fold ;; fold y x))
  /\ (forall F : Val P -> Val P -> Val P,
        Many_fold tup initial (fun y x => Ok (F y x)) =
        Ok (fold_left F tup initial)).
Proof.
  unfold Many_fold. repeat split.
  - intros x. rewrite foldM_app. apply rbind_ext. intros y. simpl.
    now destruct (fold y x).
  - intros F. apply foldM_pure.
Qed.

End ManyFacts.

Section CombinatorFacts.

Variable P : Type.
Variable prim : P -> list (Val P) -> Result (Val P).

(** *** Currying *)

Lemma call_curry_1 (f a : Val P) :
  call prim (curry 1 f) [a] = call prim f [a].
Proof. reflexivity. Qed.

Lemma call_curry_closure (n : Z) (f a : Val P) :
  n <> 1 -> call prim (curry n f) [a] = Ok (VCurryCall f a n []).
Proof.
  intros Hn. simpl. unfold _curry_call.
  destruct (Z.eqb_spec n 1); [contradiction|reflexivity].
Qed.

(** With two arguments the curried chain calls [f] with the second one
    first. *)
Lemma call_curry_2 (f a b : Val P) :
  (k <- call prim (curry 2 f) [a] ;; call prim k [b]) = call prim f [b; a].
Proof. reflexivity. Qed.

Lemma un_curry_curry_1 (f a : Val P) :
  un_curry prim 1 (curry 1 f) [a] = call prim f [a].
Proof.
  unfold un_curry, _un_curry_call. simpl. unfold _curry_call. simpl.
  now destruct (call prim f [a]).
Qed.

Lemma un_curry_loop_closures (n : Z) (f y0 : Val P) (xs : list (Val P)) :
  n <> 1 ->
  exists y, foldM (fun _ a => call prim (curry n f) [a]) y0 xs = Ok y.
Proof.
  intros Hn. revert y0. induction xs as [|a xs IH]; intros y0.
  - now exists y0.
  - cbn [foldM]. rewrite call_curry_closure by assumption. apply IH.
Qed.

(** For an arity other than 1, [un_curry] hands back the closure made by
    the last argument alone. *)
Lemma un_curry_curry_closure (n : Z) (f x : Val P) (xs : list (Val P)) :
  n <> 1 -> len (xs ++ [x]) = n ->
  un_curry prim n (curry n f) (xs ++ [x]) = Ok (VCurryCall f x n []).
Proof.
  intros Hn Hlen. unfold un_curry, _un_curry_call.
  fold (len (xs ++ [x])). rewrite Hlen, Z.eqb_refl. cbn [negb].
  rewrite foldM_app.
  destruct (un_curry_loop_closures f (curry n f) xs Hn) as [y ->].
  cbn [rbind foldM]. rewrite call_curry_closure by assumption. reflexivity.
Qed.

(** *** Loops over [range(len(xs))] *)

Lemma index_here {A : Type} (pre : list A) (x : A) (post : list A) :
  index (pre ++ x :: post) (List.length pre) = Ok x.
Proof.
  unfold index. rewrite nth_error_app2 by lia.
  now rewrite Nat.sub_diag.
Qed.

Lemma foldM_Ok_all {A B : Type} (step : A -> B -> Result A) (xs : list B) :
  forall acc r, foldM step acc xs = Ok r ->
  forall i, In i xs -> exists st st', step st i = Ok st'.
Proof.
  induction xs as [|x xs IH]; simpl; intros acc r E i Hi; [contradiction|].
  destruct (step acc x) as [acc'| |] eqn:Ex; try discriminate.
  destruct Hi as [->|Hi]; eauto.
Qed.

(** *** map *)

Lemma obj_map_ext (m : Val P) (h h' : Val P -> Result (Val P)) :
  (forall a, h a = h' a) -> obj_map m h = obj_map m h'.
Proof.
  intros E. destruct m; simpl; trivial.
  - unfold Box_map. now rewrite E.
  - destruct val; simpl; trivial. now rewrite E.
  - unfold Many_map. now rewrite (mapM_ext h h') by auto.
Qed.

Lemma obj_map_pure (m : Val P) (c : Cls) (h : Val P -> Val P) :
  type_of m = Some c ->
  obj_map m (fun x => Ok (h x)) = Ok (map_val h m).
Proof.
  destruct m; simpl; try discriminate; intros _; trivial.
  - now destruct val.
  - unfold Many_map. now rewrite mapM_pure.
Qed.

Lemma nest_map_ext (n : nat) (x : Val P) (k k' : Val P -> Result (Val P)) :
  (forall a, k a = k' a) -> nest_map n x k = nest_map n x k'.
Proof.
  intros E. revert x. induction n as [|n IH]; intros x; simpl; auto.
  apply obj_map_ext. auto.
Qed.

Lemma nest_map_inner (n : nat) (x : Val P) (k : Val P -> Result (Val P)) :
  nest_map n x (fun a => obj_map a k) = nest_map (S n) x k.
Proof.
  revert x. induction n as [|n IH]; intros x; simpl; trivial.
  apply obj_map_ext. intros a. rewrite IH. reflexivity.
Qed.

(** [n] rounds of [update = lambda y_, x, u=u: x.map(...)] descend [n]
    layers into the argument. *)
Lemma update_arg_rounds (n : nat) (u : Update P) (y x : Val P) :
  fold_left (fun u _ => update_arg u) (repeat (@VNone P) n) u y x =
  nest_map n x (fun a => u y a).
Proof.
  revert u x. induction n as [|n IH]; intros u x; simpl; trivial.
  rewrite IH. unfold update_arg.
  rewrite (nest_map_inner n x (fun a => u y a)). reflexivity.
Qed.

(** *** mmap *)

Lemma none_times_fits (z : Z) :
  ssize_min <= z <= list_max ->
  none_times (VInt z) = Ok (repeat (@VNone P) (Z.to_nat z)).
Proof.
  intros Hz. unfold none_times, ssize_min, ssize_max, list_max in *.
  destruct (Z.ltb_spec z (-9223372036854775808)); [lia|].
  destruct (Z.ltb_spec 9223372036854775807 z); [lia|].
  destruct (Z.ltb_spec 1152921504606846975 z); [lia|]. reflexivity.
Qed.

(** With one argument [mmap(L)(f)(x)] maps [f] through the [L] layers of
    [x], for a depth [L] that [[None] * L] accepts. *)
Lemma mmap_single_argument (z : Z) (f x : Val P) :
  ssize_min <= z <= list_max ->
  mmap_inner prim [VInt z] f [x] =
  nest_map (Z.to_nat z) x (fun a => call prim f [a]).
Proof.
  intros Hz. unfold mmap_inner, mmap_step.
  cbn [len List.length Z.of_nat Pos.of_succ_nat Z.eqb Pos.eqb negb seq foldM
       index nth_error rbind].
  rewrite none_times_fits by assumption.
  rewrite (@none_times_fits 0)
    by (unfold ssize_min, list_max; lia).
  cbn [rbind int_add Z.to_nat repeat fold_left snd].
  rewrite update_arg_rounds.
  rewrite (nest_map_ext _ _ (fun a => update_call prim (curry 1 f) a)
                            (fun a => call prim f [a])) by reflexivity.
  now destruct (nest_map _ _ _).
Qed.

Lemma mmap_step_not_int (functor_levels args : list (Val P))
    (st : Z * Val P) (i : nat) (lev : Val P) :
  nth_error functor_levels i = Some lev -> is_int lev = false ->
  mmap_step prim functor_levels args st i = Raise TypeError.
Proof.
  intros Hi Hlev. unfold mmap_step, index. destruct st as [layer y].
  rewrite Hi. destruct lev; try discriminate; reflexivity.
Qed.

(** C8, amended.  Where some declared depth is no integer, the call of the
    function produced by [mmap] never returns a value: with the declared
    number of arguments it fails, at the latest with the [TypeError] of
    [[None] * depth] at the argument of that depth; that is, a failure
    met at an earlier argument is the outcome, and where the earlier
    arguments pass (always so for the first depth) the outcome is that
    [TypeError].  The code has no error of its own for depths.  Nothing is
    said of negative depths, which the code does not check. *)
Theorem mmap_depth_not_validated :
  (forall (functor_levels args : list (Val P)) (f lev : Val P),
      In lev functor_levels -> is_int lev = false ->
      len args = len functor_levels ->
      forall v, mmap_inner prim functor_levels f args <> Ok v)
  /\ (forall (functor_levels args : list (Val P)) (f lev x : Val P),
        is_int lev = false ->
        len (x :: args) = len (lev :: functor_levels) ->
        mmap_inner prim (lev :: functor_levels) f (x :: args) =
        Raise TypeError)
  /\ (forall (pre post pre_a post_a : list (Val P)) (f lev x : Val P),
        is_int lev = false ->
        List.length pre_a = List.length pre ->
        List.length post_a = List.length post ->
        mmap_inner prim (pre ++ lev :: post) f (pre_a ++ x :: post_a) =
        (st <- foldM (mmap_step prim (pre ++ lev :: post)
                                (pre_a ++ x :: post_a))
                     (0, curry (len (pre ++ lev :: post)) f)
                     (seq 0 (List.length pre)) ;;
         Raise TypeError)).
Proof.
  split; [|split].
  - intros levels args f lev Hin Hlev Hlen v E.
    unfold mmap_inner in E. rewrite Hlen, Z.eqb_refl in E. cbn [negb] in E.
    destruct (foldM _ _ _) as [st| |] eqn:Efold; try discriminate.
    destruct (In_nth_error _ _ Hin) as [i Hi].
    assert (Hlt : (i < List.length levels)%nat)
      by (apply nth_error_Some; congruence).
    destruct (foldM_Ok_all _ _ _ Efold i) as (st0 & st1 & Est).
    { apply in_seq. lia. }
    rewrite (@mmap_step_not_int levels args st0 i lev Hi Hlev) in Est.
    discriminate.
  - intros levels args f lev x Hlev Hlen.
    unfold mmap_inner. rewrite Hlen, Z.eqb_refl. cbn [negb].
    cbn [List.length seq foldM].
    rewrite (@mmap_step_not_int (lev :: levels) (x :: args) _ O lev)
      by auto.
    reflexivity.
  - intros pre post pre_a post_a f lev x Hlev Hpre Hpost.
    unfold mmap_inner.
    assert (Hlen : len (pre_a ++ x :: post_a) = len (pre ++ lev :: post))
      by (unfold len; rewrite !length_app; simpl; lia).
    rewrite Hlen, Z.eqb_refl. cbn [negb].
    rewrite length_app. cbn [List.length]. rewrite seq_app, foldM_app.
    destruct (foldM _ _ (seq 0 (List.length pre))) as [st| |]; trivial.
    cbn [rbind Nat.add seq foldM].
    rewrite (@mmap_step_not_int (pre ++ lev :: post) (pre_a ++ x :: post_a)
               st (List.length pre) lev); trivial.
    rewrite nth_error_app2 by lia. now rewrite Nat.sub_diag.
Qed.

(** *** lift *)

Lemma lift_loop (fl : list bool) :
  forall (ar : list (Val P)) (pre_f : list bool) (pre_a : list (Val P))
         (y : Val P),
    List.length pre_f = List.length pre_a ->
    List.length fl = List.length ar ->
    foldM (lift_step prim (pre_f ++ fl) (pre_a ++ ar)) y
          (seq (List.length pre_f) (List.length fl)) =
    foldM (lift_fold prim) y (combine fl ar).
Proof.
  induction fl as [|flag fl IH]; intros [|x ar] pre_f pre_a y Hpre Hlen;
    try discriminate; trivial.
  cbn [List.length seq foldM combine]. unfold lift_step at 1.
  rewrite index_here. cbn [rbind lift_fold].
  assert (Hx : index (pre_a ++ x :: ar) (List.length pre_f) = Ok x)
    by (rewrite Hpre; apply index_here).
  assert (Hrest : forall y',
             foldM (lift_step prim (pre_f ++ flag :: fl) (pre_a ++ x :: ar)) y'
                   (seq (S (List.length pre_f)) (List.length fl)) =
             foldM (lift_fold prim) y' (combine fl ar)).
  { intros y'.
    specialize (IH ar (pre_f ++ [flag]) (pre_a ++ [x]) y').
    rewrite <- !app_assoc, !length_app in IH. cbn [List.length app] in IH.
    rewrite Nat.add_1_r in IH. apply IH; [|simpl in Hlen]; lia. }
  destruct flag.
  - rewrite Hx. cbn [rbind]. apply rbind_ext, Hrest.
  - rewrite (obj_map_ext y _ (fun f_ => call prim f_ [x])).
    + apply rbind_ext, Hrest.
    + intros f_. now rewrite Hx.
Qed.

(** [lift] folds the arguments left to right from the wrapped curried
    function. *)
Lemma lift_inner_fold (cls : Cls) (applicative_flags : list bool)
    (f : Val P) (args : list (Val P)) :
  List.length args = List.length applicative_flags ->
  lift_inner prim cls applicative_flags f args =
  foldM (lift_fold prim) (wrap cls (curry (len applicative_flags) f))
        (combine applicative_flags args).
Proof.
  intros Hlen. unfold lift_inner, len. rewrite Hlen, Z.eqb_refl. cbn [negb].
  apply (lift_loop applicative_flags args [] []); auto.
Qed.

(** *** Records *)

Lemma dict_set_fresh (d : Dict P) (k : string) (v : Val P) :
  dict_get d k = None -> dict_set d k v = d ++ [(k, v)].
Proof.
  induction d as [|[k' v'] d IH]; simpl; trivial.
  destruct (String.eqb k' k); [discriminate|].
  intros E. now rewrite IH.
Qed.

Lemma dict_get_set_same (d : Dict P) (k : string) (v : Val P) :
  dict_get (dict_set d k v) k = Some v.
Proof.
  induction d as [|[k' v'] d IH]; simpl.
  - now rewrite String.eqb_refl.
  - destruct (String.eqb k' k) eqn:E; simpl; now rewrite E.
Qed.

Lemma dict_get_set_other (d : Dict P) (k k0 : string) (v : Val P) :
  k0 <> k -> dict_get (dict_set d k v) k0 = dict_get d k0.
Proof.
  intros Hk. induction d as [|[k' v'] d IH]; simpl.
  - destruct (String.eqb_spec k k0); congruence.
  - destruct (String.eqb_spec k' k) as [->|]; simpl.
    + destruct (String.eqb_spec k k0); congruence.
    + now rewrite IH.
Qed.

Lemma keys_dict_set_present (d : Dict P) (k : string) (v old : Val P) :
  dict_get d k = Some old -> keys (dict_set d k v) = keys d.
Proof.
  induction d as [|[k' v'] d IH]; simpl; [discriminate|].
  destruct (String.eqb k' k); simpl; trivial.
  intros E. f_equal. now apply IH.
Qed.

(** *** do *)

Lemma do_snoc (cls : Cls) (do_ : Val P) (kwargs : list (Line P))
    (l : Line P) :
  do cls do_ (kwargs ++ [l]) =
  (state <- do cls do_ kwargs ;; obj_bind state (do_line l)).
Proof.
  unfold do. rewrite foldM_app. apply rbind_ext. intros state. simpl.
  now destruct (obj_bind state (do_line l)).
Qed.

Lemma do_line_record (name : string) (line : Val P -> Result (Val P))
    (state : Dict P) :
  do_line (name, line) (VDo state) =
  (m <- line (VDo state) ;;
   obj_map m (fun x => Do_new (dict_set state name x))).
Proof. reflexivity. Qed.

Lemma Do_new_set (state : Dict P) (name : string) (x : Val P) :
  name <> "self"%string -> dict_get state "self" = None ->
  Do_new (dict_set state name x) = Ok (VDo (dict_set state name x)).
Proof.
  intros Hname Hself. unfold Do_new.
  rewrite dict_get_set_other by congruence. now rewrite Hself.
Qed.

(** A step on a record under a name that [Do] accepts. *)
Lemma do_line_set (name : string) (line : Val P -> Result (Val P))
    (state : Dict P) :
  name <> "self"%string -> dict_get state "self" = None ->
  do_line (name, line) (VDo state) =
  (m <- line (VDo state) ;;
   obj_map m (fun x => Ok (VDo (dict_set state name x)))).
Proof.
  intros Hname Hself. rewrite do_line_record. apply rbind_ext. intros m.
  apply obj_map_ext. intros x. now apply Do_new_set.
Qed.

Lemma obj_bind_wrap (cls : Cls) (s m : Val P)
    (k : Val P -> Result (Val P)) :
  type_of m = Some cls -> k s = Ok m -> obj_bind (wrap cls s) k = Ok m.
Proof.
  intros Hm Hk. destruct cls; simpl; trivial.
  unfold Many_bind. simpl. rewrite Hk. simpl.
  destruct m; try discriminate. simpl. now rewrite app_nil_r.
Qed.

Lemma type_of_map_val (h : Val P -> Val P) (m : Val P) :
  type_of (map_val h m) = type_of m.
Proof. now destruct m. Qed.

End CombinatorFacts.

Section MmapFacts.

Variable P : Type.
Variable prim : P -> list (Val P) -> Result (Val P).

(** *** Closures of the curried chain *)

Lemma clo_snoc (k : Z) (f x : Val P) (given : list (Val P)) :
  clo k f (given ++ [x]) = VCurryCall f x (k - len given) given.
Proof.
  unfold clo, len. rewrite rev_app_distr. simpl.
  now rewrite rev_involutive, length_rev.
Qed.

Lemma call_clo (k : Z) (f a : Val P) (given : list (Val P)) :
  len given + 1 < k ->
  call prim (clo k f given) [a] = Ok (clo k f (given ++ [a])).
Proof.
  intros Hk. destruct given as [|x given] using rev_ind.
  - change (clo k f []) with (curry k f).
    rewrite call_curry_closure by (unfold len in Hk; simpl in Hk; lia).
    rewrite (clo_snoc k f a []). unfold len. simpl. now rewrite Z.sub_0_r.
  - rewrite !clo_snoc. simpl. unfold _curry_call.
    unfold len in *. rewrite length_app in *. simpl List.length in *.
    destruct (Z.eqb_spec (k - Z.of_nat (List.length given) - 1) 1); [lia|].
    f_equal. f_equal. lia.
Qed.

Lemma call_clo_last (k : Z) (f a : Val P) (given : list (Val P)) :
  len given + 1 = k ->
  call prim (clo k f given) [a] = call prim f (a :: given).
Proof.
  intros Hk. destruct given as [|x given] using rev_ind.
  - unfold len in Hk. simpl in Hk. subst k. reflexivity.
  - rewrite clo_snoc. simpl. unfold _curry_call.
    unfold len in *. rewrite length_app in *. simpl List.length in *.
    destruct (Z.eqb_spec (k - Z.of_nat (List.length given) - 1) 1); [|lia].
    reflexivity.
Qed.

Lemma call_chain_clo (k : Z) (f x : Val P) (rest : list (Val P)) :
  forall given,
    len given + len (rest ++ [x]) = k ->
    call_chain prim (clo k f given) (rest ++ [x]) =
    call prim f (x :: given ++ rest).
Proof.
  unfold call_chain, len.
  induction rest as [|a rest IH]; intros given Hk; simpl app; cbn [foldM].
  - rewrite call_clo_last by len_lia.
    rewrite app_nil_r. now destruct (call prim f (x :: given)).
  - rewrite call_clo.
    + cbn [rbind]. rewrite IH.
      * now rewrite <- app_assoc.
      * clear IH. len_lia.
    + clear IH. len_lia.
Qed.

(** The chain of [curry(n)(f)] fed with [n] arguments one at a time calls
    [f] with the last argument first. *)
Lemma curry_chain_rotates (f x : Val P) (xs : list (Val P)) :
  call_chain prim (curry (len (xs ++ [x])) f) (xs ++ [x]) =
  call prim f (x :: xs).
Proof.
  change (curry (len (xs ++ [x])) f) with (clo (len (xs ++ [x])) f []).
  now rewrite call_chain_clo.
Qed.

(** *** Nested maps *)

Lemma obj_map_ext_in (m : Val P) (h h' : Val P -> Result (Val P)) :
  (forall a, In a (elems m) -> h a = h' a) -> obj_map m h = obj_map m h'.
Proof.
  intros E. destruct m; simpl in *; trivial.
  - unfold Box_map. now rewrite E by auto.
  - destruct val; simpl in *; trivial. now rewrite E by auto.
  - unfold Many_map. now rewrite (mapM_ext h h') by auto.
Qed.

Lemma obj_map_map_val (m : Val P) (g : Val P -> Val P)
    (h : Val P -> Result (Val P)) :
  obj_map (map_val g m) h = obj_map m (fun a => h (g a)).
Proof.
  destruct m; simpl; trivial.
  - now destruct val.
  - unfold Many_map. now rewrite mapM_map.
Qed.

Lemma nested_S (n : nat) (x : Val P) :
  nested (S n) x = true ->
  (exists c, type_of x = Some c)
  /\ forall a, In a (elems x) -> nested n a = true.
Proof.
  destruct x; simpl; try discriminate; intros Hx.
  - split; [eauto|]. intros a [<-|[]]. assumption.
  - split; [eauto|]. destruct val; simpl; [|contradiction].
    intros a [<-|[]]. assumption.
  - split; [eauto|]. intros a Ha.
    rewrite forallb_forall in Hx. auto.
Qed.

Lemma nest_map_pure (n : nat) (h : Val P -> Val P) :
  forall x, nested n x = true ->
  nest_map n x (fun a => Ok (h a)) = Ok (nest_val n h x).
Proof.
  induction n as [|n IH]; intros x Hx; trivial.
  destruct (nested_S _ _ Hx) as ((c & Hc) & Hel). cbn [nest_map nest_val].
  rewrite (obj_map_ext_in x _ (fun a => Ok (nest_val n h a))) by auto.
  now apply obj_map_pure with (c := c).
Qed.

Lemma nest_map_fuse (n : nat) (g : Val P -> Val P)
    (h : Val P -> Result (Val P)) :
  forall x, nested n x = true ->
  nest_map n (nest_val n g x) h = nest_map n x (fun a => h (g a)).
Proof.
  induction n as [|n IH]; intros x Hx; trivial.
  destruct (nested_S _ _ Hx) as (_ & Hel). cbn [nest_map nest_val].
  rewrite obj_map_map_val. apply obj_map_ext_in. auto.
Qed.

Lemma nest_map_add (n m : nat) (h : Val P -> Result (Val P)) :
  forall y,
  nest_map (n + m) y h = nest_map n y (fun y' => nest_map m y' h).
Proof.
  induction n as [|n IH]; intros y; trivial.
  cbn [Nat.add nest_map]. apply obj_map_ext. auto.
Qed.

(** [n] rounds of [update = lambda y_, x, u=u: y_.map(...)] descend [n]
    layers into the accumulated value. *)
Lemma update_acc_rounds (n : nat) (u : Update P) (y x : Val P) :
  fold_left (fun u _ => update_acc u) (repeat (@VNone P) n) u y x =
  nest_map n y (fun y' => u y' x).
Proof.
  revert u y. induction n as [|n IH]; intros u y; simpl; trivial.
  rewrite IH. unfold update_acc.
  rewrite (nest_map_inner n y (fun y' => u y' x)). reflexivity.
Qed.

Lemma none_times_nat (n : nat) :
  Z.of_nat n <= list_max ->
  none_times (VInt (Z.of_nat n)) = Ok (repeat (@VNone P) n).
Proof.
  intros Hn. rewrite none_times_fits, Nat2Z.id; trivial.
  unfold ssize_min. lia.
Qed.

(** One round of the loop of [mmap] on a depth [n]: through the layers
    gathered so far, then through the [n] layers of the argument, call. *)
Lemma mmap_step_depth (functor_levels args : list (Val P)) (i n layer : nat)
    (x y : Val P) :
  Z.of_nat n <= list_max -> Z.of_nat layer <= list_max ->
  index functor_levels i = Ok (depth_val P n) ->
  index args i = Ok x ->
  mmap_step prim functor_levels args (Z.of_nat layer, y) i =
  (y' <- nest_map layer y
           (fun y_ => nest_map n x (fun a => call prim y_ [a])) ;;
   Ok (Z.of_nat (layer + n), y')).
Proof.
  intros Hn Hlayer Hlev Hx. unfold mmap_step. rewrite Hlev, Hx.
  cbn [rbind]. unfold depth_val. rewrite !none_times_nat by assumption.
  cbn [rbind int_add].
  rewrite update_acc_rounds.
  rewrite (nest_map_ext layer y _
             (fun y_ => nest_map n x (fun a => call prim y_ [a])))
    by (intros; apply update_arg_rounds).
  rewrite Nat2Z.inj_add. reflexivity.
Qed.

(** *** The contract and the loop *)

Lemma broadcast_ext (levels : list nat) :
  forall (args : list (Val P)) (K K' : list (Val P) -> Result (Val P)),
    List.length levels = List.length args ->
    (forall l, List.length l = List.length levels -> K l = K' l) ->
    broadcast levels args K = broadcast levels args K'.
Proof.
  induction levels as [|n levels IH]; intros [|x args] K K' Hlen E;
    try discriminate; cbn [broadcast]; auto.
  apply nest_map_ext. intros a. apply IH; [simpl in Hlen; lia|].
  intros l Hl. apply E. simpl. now rewrite Hl.
Qed.

Lemma broadcast_snoc (levels : list nat) (n : nat) (x : Val P) :
  forall (args : list (Val P)) (K : list (Val P) -> Result (Val P)),
    List.length levels = List.length args ->
    broadcast (levels ++ [n]) (args ++ [x]) K =
    broadcast levels args
      (fun leaves => nest_map n x (fun a => K (leaves ++ [a]))).
Proof.
  induction levels as [|m levels IH]; intros [|z args] K Hlen;
    try discriminate; cbn [broadcast app]; trivial.
  apply nest_map_ext. intros a.
  now rewrite IH by (simpl in Hlen; lia).
Qed.

Lemma broadcast_pure (levels : list nat) :
  forall (args : list (Val P)) (h : list (Val P) -> Val P),
    Forall2 (fun n x => nested n x = true) levels args ->
    broadcast levels args (fun leaves => Ok (h leaves)) =
    Ok (bval levels args h).
Proof.
  induction levels as [|n levels IH]; intros [|x args] h Hn; inversion Hn;
    subst; cbn [broadcast bval]; trivial.
  rewrite (nest_map_ext n x _
             (fun a => Ok (bval levels args (fun rest => h (a :: rest)))))
    by (intros; now apply IH).
  now apply nest_map_pure.
Qed.

Lemma bval_fuse (levels : list nat) :
  forall (args : list (Val P)) (g : list (Val P) -> Val P)
         (h : Val P -> Result (Val P)),
    Forall2 (fun n x => nested n x = true) levels args ->
    nest_map (list_sum levels) (bval levels args g) h =
    broadcast levels args (fun leaves => h (g leaves)).
Proof.
  induction levels as [|n levels IH]; intros [|x args] g h Hn; inversion Hn;
    subst; cbn [broadcast bval list_sum fold_right]; trivial.
  fold (list_sum levels).
  rewrite nest_map_add, nest_map_fuse by assumption.
  apply nest_map_ext. intros a. now apply IH.
Qed.

Lemma last_first_snoc (xs : list (Val P)) (x : Val P) :
  last_first (xs ++ [x]) = x :: xs.
Proof.
  unfold last_first. rewrite rev_app_distr. simpl.
  now rewrite rev_involutive.
Qed.

Lemma list_sum_snoc (xs : list nat) (n : nat) :
  list_sum (xs ++ [n]) = (list_sum xs + n)%nat.
Proof. rewrite list_sum_app. simpl. lia. Qed.

Lemma mmap_loop (f : Val P) (k : Z) (ls : list nat) :
  forall (ar : list (Val P)) (pre_l : list nat) (pre_a : list (Val P)),
    Forall2 (fun n x => nested n x = true) pre_l pre_a ->
    Forall2 (fun n x => nested n x = true) ls ar ->
    ls <> [] ->
    k = len (pre_l ++ ls) ->
    Z.of_nat (list_sum (pre_l ++ ls)) <= list_max ->
    foldM (mmap_step prim (List.map (depth_val P) (pre_l ++ ls))
                     (pre_a ++ ar))
          (Z.of_nat (list_sum pre_l), bval pre_l pre_a (clo k f))
          (seq (List.length pre_l) (List.length ls)) =
    (y <- broadcast (pre_l ++ ls) (pre_a ++ ar)
            (fun leaves => call prim f (last_first leaves)) ;;
     Ok (Z.of_nat (list_sum (pre_l ++ ls)), y)).
Proof.
  induction ls as [|n ls IH]; intros ar pre_l pre_a Hpre Hls Hne Hk Hsum;
    [contradiction|].
  inversion Hls as [|? x ? ar' Hx Hrest]; subst ar. clear Hls.
  pose proof (Forall2_length Hpre) as Hlen.
  assert (Hbound : (list_sum pre_l + n <= list_sum (pre_l ++ n :: ls))%nat)
    by (rewrite list_sum_app; simpl; lia).
  cbn [List.length seq foldM].
  rewrite (@mmap_step_depth _ _ (List.length pre_l) n (list_sum pre_l) x).
  2: lia.
  2: lia.
  2:{ rewrite map_app. cbn [List.map].
      rewrite <- (length_map (depth_val P) pre_l). apply index_here. }
  2:{ rewrite Hlen. apply index_here. }
  rewrite bval_fuse by assumption.
  destruct ls as [|n' ls].
  - (* the last argument: the chain calls [f] *)
    inversion Hrest. subst ar'.
    rewrite (broadcast_ext pre_l pre_a _
               (fun leaves => nest_map n x
                  (fun a => call prim f (last_first (leaves ++ [a]))))).
    2: assumption.
    2:{ intros given Hgiven. apply nest_map_ext. intros a.
        rewrite last_first_snoc. apply call_clo_last. subst k. len_lia. }
    rewrite <- (broadcast_snoc pre_l n x pre_a
                  (fun leaves => call prim f (last_first leaves)))
      by assumption.
    rewrite list_sum_snoc.
    now destruct (broadcast _ _ _).
  - (* more arguments follow: the chain makes a closure *)
    rewrite (broadcast_ext pre_l pre_a _
               (fun leaves => nest_map n x
                  (fun a => Ok (clo k f (leaves ++ [a]))))).
    2: assumption.
    2:{ intros given Hgiven. apply nest_map_ext. intros a.
        apply call_clo. subst k. len_lia. }
    rewrite <- (broadcast_snoc pre_l n x pre_a
                  (fun leaves => Ok (clo k f leaves)))
      by assumption.
    assert (Hpre' : Forall2 (fun n x => nested n x = true)
                            (pre_l ++ [n]) (pre_a ++ [x]))
      by (apply Forall2_app; auto).
    rewrite broadcast_pure by assumption. cbn [rbind].
    specialize (IH ar' (pre_l ++ [n]) (pre_a ++ [x]) Hpre' Hrest).
    rewrite <- !app_assoc in IH. cbn [app] in IH.
    rewrite length_app, Nat.add_1_r, list_sum_snoc in IH.
    apply IH; [discriminate|assumption|assumption].
Qed.

(** On arguments nested as deep as declared, with no more layers in all
    than the longest list has items, [mmap] is the contract's broadcast in
    shape and order, of [f] with the last argument first. *)
Theorem mmap_broadcast (levels : list nat) (args : list (Val P))
    (f : Val P) :
  levels <> [] ->
  Z.of_nat (list_sum levels) <= list_max ->
  Forall2 (fun n x => nested n x = true) levels args ->
  transform (mmap prim (List.map (depth_val P) levels)) f args =
  broadcast levels args (fun leaves => call prim f (last_first leaves)).
Proof.
  intros Hne Hsum Hn. pose proof (Forall2_length Hn) as Hlen.
  unfold transform, mmap, mmap_inner, len. rewrite length_map.
  destruct levels as [|n levels]; [contradiction|].
  assert (E : (Z.of_nat (List.length (n :: levels)) <=? 0) = false)
    by (apply Z.leb_gt; simpl List.length; lia).
  rewrite E. cbn [rbind]. rewrite <- Hlen, Z.eqb_refl. cbn [negb].
  pose proof (@mmap_loop f (Z.of_nat (List.length (n :: levels)))
                (n :: levels) args [] [] (Forall2_nil _) Hn Hne eq_refl
                Hsum)
    as Hloop.
  cbn [app list_sum fold_right bval] in Hloop.
  change (List.length (@nil nat)) with O in Hloop.
  change (Z.of_nat 0) with 0 in Hloop.
  unfold clo in Hloop. cbn [rev] in Hloop. unfold curry.
  rewrite Hloop. now destruct (broadcast _ _ _).
Qed.

End MmapFacts.

Section FlattenFacts.

Variable P : Type.

Lemma issubclass_type_of (v : Val P) (mon : Cls) :
  issubclass_type v mon = true -> type_of v = Some mon.
Proof.
  unfold issubclass_type. destruct (type_of v) as [c|]; [|discriminate].
  destruct c, mon; simpl; congruence.
Qed.

Lemma leaves_other (v : Val P) (mon : Cls) :
  issubclass_type v mon = false -> leaves mon v = [v].
Proof.
  destruct v; simpl; trivial; unfold issubclass_type; simpl;
    intros ->; reflexivity.
Qed.

Lemma leaves_elems (v : Val P) (mon : Cls) :
  type_of v = Some mon -> leaves mon v = flat_map (leaves mon) (elems v).
Proof.
  destruct v; simpl; try discriminate; intros [= <-]; simpl; trivial.
  - now rewrite app_nil_r.
  - destruct val; simpl; trivial. now rewrite app_nil_r.
Qed.

Lemma depth_fold_max (mon : Cls) (tup : list (Val P)) (a : Val P) :
  In a tup ->
  (depth mon a <= fold_right (fun x d => Nat.max (depth mon x) d) O tup)%nat.
Proof.
  induction tup as [|x tup IH]; simpl; [contradiction|].
  intros [->|Hin]; [|specialize (IH Hin)]; lia.
Qed.

Lemma depth_elems (v a : Val P) (mon : Cls) :
  type_of v = Some mon -> In a (elems v) ->
  (depth mon a < depth mon v)%nat.
Proof.
  destruct v; simpl; try discriminate; intros [= <-]; simpl.
  - intros [->|[]]. lia.
  - destruct val; simpl; [|contradiction]. intros [->|[]]. lia.
  - intros Hin. apply depth_fold_max with (mon := Many) in Hin. lia.
Qed.

Lemma elems_map_val (h : Val P -> Val P) (m : Val P) (c : Cls) :
  type_of m = Some c -> elems (map_val h m) = List.map h (elems m).
Proof.
  destruct m; simpl; try discriminate; trivial.
  now destruct val.
Qed.

Lemma wrap_of_leaves (mon : Cls) (s : Val P) :
  wrap mon s = of_leaves mon [s].
Proof. now destruct mon. Qed.

Lemma Many_bind_gen_leaves (tup : list (Val P))
    (k : Val P -> Result (Val P)) (L : Val P -> list (Val P)) :
  (forall x, In x tup -> k x = Ok (VMany (L x))) ->
  Many_bind_gen tup k = Ok (flat_map L tup).
Proof.
  induction tup as [|x tup IH]; simpl; intros Hk; trivial.
  rewrite (Hk x), IH by auto. reflexivity.
Qed.

(** [bind] with a continuation that returns flat containers of the same
    class puts their elements side by side. *)
Lemma obj_bind_leaves (m : Val P) (c : Cls)
    (k : Val P -> Result (Val P)) (L : Val P -> list (Val P)) :
  type_of m = Some c ->
  (forall x, In x (elems m) -> k x = Ok (of_leaves c (L x))) ->
  obj_bind m k = Ok (of_leaves c (flat_map L (elems m))).
Proof.
  destruct m; simpl; try discriminate; intros [= <-] Hk.
  - unfold Box_bind. rewrite Hk by auto. simpl. now rewrite app_nil_r.
  - destruct val as [x|]; simpl; trivial.
    rewrite Hk by (simpl; auto). simpl. now rewrite app_nil_r.
  - unfold Many_bind. now rewrite (Many_bind_gen_leaves tup k L).
Qed.

Lemma flat_map_Do_x (mon : Cls) (L : Val P -> list (Val P))
    (xs : list (Val P)) :
  (forall a, L (Do_x a) = List.map (@Do_x P) (leaves mon a)) ->
  flat_map L (List.map (@Do_x P) xs) =
  List.map (@Do_x P) (flat_map (leaves mon) xs).
Proof.
  intros HL. induction xs as [|x xs IH]; simpl; trivial.
  now rewrite HL, IH, map_app.
Qed.

(** One pass of the loop of [flatten] on [Do(x = e)] with [e] of the class:
    the elements of [e], each in its own record. *)
Lemma flatten_pass (mon : Cls) (e : Val P) :
  type_of e = Some mon ->
  do mon (wrap mon (Do_x e)) [("x"%string, fun s => getattr s "x")] =
  Ok (map_val (@Do_x P) e).
Proof.
  intros He. unfold do.
  replace (is_None (wrap mon (Do_x e))) with false by now destruct mon.
  cbn [foldM].
  rewrite (@obj_bind_wrap P mon (Do_x e) (map_val (@Do_x P) e)).
  - reflexivity.
  - now rewrite type_of_map_val.
  - unfold Do_x at 1. rewrite do_line_set by (discriminate || reflexivity).
    simpl. now apply obj_map_pure with (c := mon).
Qed.

Lemma getattr_Do_x (a : Val P) : getattr (Do_x a) "x" = Ok a.
Proof. reflexivity. Qed.

Lemma flatten_rows_Do_x (mon : Cls) (a : Val P) :
  flatten_rows mon (Do_x a) = List.map (@Do_x P) (leaves mon a).
Proof. reflexivity. Qed.

Lemma while_do_flatten (fuel : nat) :
  forall (mon : Cls) (e : Val P),
    (depth mon e < fuel)%nat ->
    while_do fuel mon
      (fun s => x <- getattr s "x" ;; Ok (issubclass_type x mon))
      [("x"%string, fun s => getattr s "x")]
      (Do_x e) =
    Ok (of_leaves mon (List.map (@Do_x P) (leaves mon e))).
Proof.
  induction fuel as [|fuel IH]; intros mon e Hd; [lia|].
  cbn [while_do]. rewrite getattr_Do_x. cbn [rbind].
  destruct (issubclass_type e mon) eqn:Hsub.
  - apply issubclass_type_of in Hsub.
    rewrite (flatten_pass e Hsub). cbn [rbind].
    rewrite (@obj_bind_leaves _ mon _ (flatten_rows mon)).
    + rewrite (elems_map_val (@Do_x P) e Hsub), (leaves_elems e Hsub).
      now rewrite (flat_map_Do_x mon _ _ (flatten_rows_Do_x mon)).
    + now rewrite type_of_map_val.
    + rewrite (elems_map_val (@Do_x P) e Hsub). intros s Hs.
      apply in_map_iff in Hs. destruct Hs as (a & <- & Ha).
      apply IH. pose proof (depth_elems e a Hsub Ha). lia.
  - rewrite (leaves_other e mon Hsub). simpl List.map.
    now rewrite wrap_of_leaves.
Qed.

Lemma leaves_Box_nonempty (n : nat) :
  forall v : Val P, (depth Box v <= n)%nat -> leaves Box v <> [].
Proof.
  induction n as [|n IH]; intros v Hd; destruct v; simpl in *;
    try discriminate; try lia.
  apply IH. lia.
Qed.

Lemma mapM_getattr_Do_x (xs : list (Val P)) :
  mapM (fun s => getattr s "x") (List.map (@Do_x P) xs) = Ok xs.
Proof.
  induction xs as [|x xs IH]; trivial.
  cbn [List.map mapM]. now rewrite getattr_Do_x, IH.
Qed.

Lemma flatten_project (mon : Cls) (xs : list (Val P)) :
  (mon = Box -> xs <> []) ->
  obj_map (of_leaves mon (List.map (@Do_x P) xs))
          (fun s => getattr s "x") =
  Ok (of_leaves mon xs).
Proof.
  intros Hne. destruct mon; simpl.
  - destruct xs as [|x xs]; [now destruct Hne|]. reflexivity.
  - now destruct xs.
  - unfold Many_map. now rewrite mapM_getattr_Do_x.
Qed.

(** [flatten] on a value of the class, with fuel for every layer. *)
Lemma flatten_leaves (fuel : nat) (mon : Cls) (expr : Val P) :
  type_of expr = Some mon -> (depth mon expr <= fuel)%nat ->
  flatten fuel mon expr = Ok (of_leaves mon (leaves mon expr)).
Proof.
  intros He Hd. unfold flatten.
  assert (Estart :
    do mon VNone [("x"%string, fun _ : Val P => Ok expr)] =
    Ok (map_val (@Do_x P) expr)).
  { unfold do. cbn [is_None foldM].
    rewrite (@obj_bind_wrap P mon (VDo []) (map_val (@Do_x P) expr)).
    - reflexivity.
    - now rewrite type_of_map_val.
    - rewrite do_line_set by (discriminate || reflexivity). simpl.
      now apply obj_map_pure with (c := mon). }
  rewrite Estart. cbn [rbind]. unfold loop.
  replace (is_None (map_val (@Do_x P) expr)) with false
    by now destruct expr.
  rewrite (@obj_bind_leaves _ mon _ (flatten_rows mon)).
  - cbn [rbind].
    rewrite (elems_map_val (@Do_x P) expr He).
    rewrite (flat_map_Do_x mon _ _ (flatten_rows_Do_x mon)).
    rewrite <- (leaves_elems expr He).
    apply flatten_project. intros ->. now apply leaves_Box_nonempty with fuel.
  - now rewrite type_of_map_val.
  - rewrite (elems_map_val (@Do_x P) expr He). intros s Hs.
    apply in_map_iff in Hs. destruct Hs as (a & <- & Ha).
    apply while_do_flatten. pose proof (depth_elems expr a He Ha). lia.
Qed.

End FlattenFacts.

(** ** Further properties of the library *)

Section CurryMore.

Variable P : Type.
Variable prim : P -> list (Val P) -> Result (Val P).

Lemma call_clo_other (k : Z) (f a : Val P) (given : list (Val P)) :
  k <> len given + 1 ->
  call prim (clo k f given) [a] = Ok (clo k f (given ++ [a])).
Proof.
  intros Hk. destruct given as [|x given _] using rev_ind.
  - change (clo k f []) with (curry k f).
    rewrite call_curry_closure by len_lia.
    rewrite (clo_snoc k f a []). unfold len. simpl. now rewrite Z.sub_0_r.
  - rewrite !clo_snoc. simpl. unfold _curry_call.
    destruct (Z.eqb_spec (k - len given - 1) 1); [len_lia|].
    f_equal. f_equal. len_lia.
Qed.

(** X1.  Fed with fewer arguments than its arity, or with any number of
    them when the arity is zero or negative, the chain of [curry(k)(f)]
    never calls [f]: it returns the closure of the arguments so far. *)
Theorem curry_partial_application (k : Z) (f : Val P) (args : list (Val P)) :
  k <= 0 \/ len args < k ->
  call_chain prim (curry k f) args = Ok (clo k f args).
Proof.
  intros Hk. change (curry k f) with (clo k f []).
  rewrite <- (app_nil_l args) at 2.
  assert (Hgiven : k <= 0 \/ len (@nil (Val P)) + len args < k)
    by (destruct Hk; [now left|right; len_lia]).
  clear Hk. revert Hgiven. generalize (@nil (Val P)) as given.
  unfold call_chain.
  induction args as [|a args IH]; intros given Hk; cbn [foldM].
  - now rewrite app_nil_r.
  - rewrite call_clo_other by (destruct Hk; len_lia). cbn [rbind].
    rewrite IH by (destruct Hk; [now left|right; len_lia]).
    now rewrite <- app_assoc.
Qed.

Lemma foldM_const_step (h : Val P -> Result (Val P)) (xs ys : list (Val P)) :
  mapM h xs = Ok ys ->
  forall y0, exists y, foldM (fun _ a => h a) y0 xs = Ok y.
Proof.
  revert ys. induction xs as [|x xs IH]; intros ys E y0; simpl.
  - eauto.
  - simpl in E. destruct (h x) as [y| |]; try discriminate. simpl in *.
    destruct (mapM h xs) as [ys'| |]; try discriminate. eauto.
Qed.

(** X3.  [un_curry(n)(f)] raises the arity error, and calls nothing, when
    it is not given exactly [n] arguments; given [n] of them it calls [f]
    on each and returns what [f] makes of the last one alone; with [n = 0]
    and no argument it returns [f]. *)
Theorem un_curry_returns_call_on_last (n : Z) (f : Val P) :
  (forall xs, len xs <> n ->
              un_curry prim n f xs = Raise (ArityMismatch n (len xs)))
  /\ (forall pre x ys,
        len (pre ++ [x]) = n ->
        mapM (fun a => call prim f [a]) pre = Ok ys ->
        un_curry prim n f (pre ++ [x]) = call prim f [x])
  /\ (n = 0 -> un_curry prim n f [] = Ok f).
Proof.
  unfold un_curry, _un_curry_call. split; [|split].
  - intros xs Hn. fold (len xs).
    destruct (Z.eqb_spec (len xs) n); [contradiction|reflexivity].
  - intros pre x ys Hn E. fold (len (pre ++ [x])).
    rewrite Hn, Z.eqb_refl. cbn [negb]. rewrite foldM_app.
    destruct (foldM_const_step _ _ E f) as [y ->]. cbn [rbind foldM].
    now destruct (call prim f [x]).
  - intros ->. reflexivity.
Qed.

End CurryMore.

Section MmapLiftMore.

Variable P : Type.
Variable prim : P -> list (Val P) -> Result (Val P).

(** X2.  Fed with as many arguments as its arity, the chain of
    [curry(n)(f)] calls [f] once, with the last argument first and the
    others after it in the order given, and goes on with what [f] returned
    when more arguments follow. *)
Theorem curry_full_application (f x : Val P) (xs more : list (Val P)) :
  call_chain prim (curry (len (xs ++ [x])) f) ((xs ++ [x]) ++ more) =
  (r <- call prim f (x :: xs) ;; call_chain prim r more).
Proof.
  unfold call_chain at 1. rewrite foldM_app.
  fold (call_chain prim (curry (len (xs ++ [x])) f) (xs ++ [x])).
  now rewrite curry_chain_rotates.
Qed.

Lemma len_neq_nil {A : Type} (xs : list A) : xs <> [] -> (len xs <=? 0) = false.
Proof.
  intros Hne. destruct xs; [contradiction|]. apply Z.leb_gt. len_lia.
Qed.

(** X4.  [mmap()] and [lift()] without a depth or flag raise their own
    error; the function they produce otherwise raises the arity error on
    any other number of arguments than declared, before it looks at a depth
    or a flag or touches an argument. *)
Theorem mmap_lift_count_errors :
  (forall (f : Val P) args, transform (mmap prim []) f args = Raise EmptyMmap)
  /\ (forall cls (f : Val P) args,
        transform (lift prim cls []) f args = Raise EmptyLift)
  /\ (forall functor_levels (f : Val P) args,
        functor_levels <> [] -> len args <> len functor_levels ->
        transform (mmap prim functor_levels) f args =
        Raise (ArityMismatch (len functor_levels) (len args)))
  /\ (forall cls applicative_flags (f : Val P) args,
        applicative_flags <> [] -> len args <> len applicative_flags ->
        transform (lift prim cls applicative_flags) f args =
        Raise (ArityMismatch (len applicative_flags) (len args))).
Proof.
  repeat split; trivial.
  - intros levels f args Hne Hlen. unfold transform, mmap.
    rewrite len_neq_nil by assumption. cbn [rbind]. unfold mmap_inner.
    destruct (Z.eqb_spec (len args) (len levels)); [contradiction|].
    reflexivity.
  - intros cls flags f args Hne Hlen. unfold transform, lift.
    rewrite len_neq_nil by assumption. cbn [rbind]. unfold lift_inner.
    destruct (Z.eqb_spec (len args) (len flags)); [contradiction|].
    reflexivity.
Qed.

Lemma obj_map_plain (x : Val P) (h : Val P -> Result (Val P)) :
  is_plain x = true -> obj_map x h = Raise AttributeError.
Proof. destruct x; simpl; try discriminate; reflexivity. Qed.

Lemma mmap_inner_depth_refused (z : Z) (f x : Val P) (e : Exn) :
  none_times (VInt z : Val P) = Raise e ->
  mmap_inner prim [VInt z] f [x] = Raise e.
Proof.
  intros E. unfold mmap_inner, mmap_step.
  cbn [len List.length Z.of_nat Pos.of_succ_nat Z.eqb Pos.eqb negb seq foldM
       index nth_error rbind].
  now rewrite E.
Qed.

(** X5.  With one argument, whatever it is, and a depth [L] that
    [[None] * L] accepts (from [-2^63] to the longest list, [2^60 - 1]),
    [mmap(L)(f)(x)] maps [f] through [L] layers of [x], none when [L <= 0],
    the failures of [map] and of [f] included; so on a value without a
    [map] method and [L > 0] it is an [AttributeError].  A depth beyond the
    longest list is a [MemoryError], one that does not fit an index an
    [OverflowError]. *)
Theorem mmap_one_argument (z : Z) (f x : Val P) :
  (ssize_min <= z <= list_max ->
   transform (mmap prim [VInt z]) f [x] =
   nest_map (Z.to_nat z) x (fun a => call prim f [a]))
  /\ (0 < z <= list_max -> is_plain x = true ->
      transform (mmap prim [VInt z]) f [x] = Raise AttributeError)
  /\ (list_max < z <= ssize_max ->
      transform (mmap prim [VInt z]) f [x] = Raise MemoryError)
  /\ (z < ssize_min \/ ssize_max < z ->
      transform (mmap prim [VInt z]) f [x] = Raise OverflowError).
Proof.
  assert (E : ssize_min <= z <= list_max ->
              transform (mmap prim [VInt z]) f [x] =
              nest_map (Z.to_nat z) x (fun a => call prim f [a]))
    by apply mmap_single_argument.
  split; [assumption|]. split; [|split].
  - intros Hz Hx. rewrite E by (unfold ssize_min; lia).
    destruct (Z.to_nat z) as [|n] eqn:En; [lia|].
    cbn [nest_map]. now apply obj_map_plain.
  - intros Hz. apply mmap_inner_depth_refused.
    unfold none_times, ssize_min, ssize_max, list_max in *.
    destruct (Z.ltb_spec z (-9223372036854775808)); [lia|].
    destruct (Z.ltb_spec 9223372036854775807 z); [lia|].
    destruct (Z.ltb_spec 1152921504606846975 z); [reflexivity|lia].
  - intros Hz. apply mmap_inner_depth_refused.
    unfold none_times, ssize_min, ssize_max in *.
    destruct (Z.ltb_spec z (-9223372036854775808)); [reflexivity|].
    destruct (Z.ltb_spec 9223372036854775807 z); [reflexivity|].
    destruct Hz; lia.
Qed.

Lemma broadcast_zeros (args : list (Val P)) :
  forall K : list (Val P) -> Result (Val P),
    broadcast (List.map (fun _ => O) args) args K = K args.
Proof.
  induction args as [|x args IH]; intros K; cbn [List.map broadcast nest_map];
    auto.
Qed.

(** X6.  With every depth 0, [mmap] calls [f] once on the arguments as they
    are, containers or not, the last one first; no [map] is called. *)
Theorem mmap_depths_zero (f : Val P) (args : list (Val P)) :
  args <> [] ->
  transform (mmap prim (List.map (fun _ => VInt 0) args)) f args =
  call prim f (last_first args).
Proof.
  intros Hne.
  replace (List.map (fun _ : Val P => @VInt P 0) args)
    with (List.map (depth_val P) (List.map (fun _ => O) args))
    by (rewrite map_map; reflexivity).
  rewrite mmap_broadcast.
  - now rewrite broadcast_zeros.
  - destruct args; [contradiction|discriminate].
  - replace (list_sum (List.map (fun _ => O) args)) with O
      by (clear Hne; induction args; simpl; trivial).
    unfold list_max. lia.
  - clear Hne. induction args; simpl; constructor; auto.
Qed.

(** X7.  On arguments that are nests of [Box], [Maybe] and [Many] as deep
    as declared, the depths making in all no more layers than the longest
    list has items ([2^60 - 1]), [mmap] has the shape of the broadcast of
    the contract, the layers of the first argument outermost and so on; at
    each position it calls [f] on the elements met, the one of the last
    argument first. *)
Theorem mmap_broadcasts_last_first (levels : list nat)
    (args : list (Val P)) (f : Val P) :
  levels <> [] ->
  Z.of_nat (list_sum levels) <= list_max ->
  Forall2 (fun n x => nested n x = true) levels args ->
  transform (mmap prim (List.map (depth_val P) levels)) f args =
  broadcast levels args (fun leaves => call prim f (last_first leaves)).
Proof. apply mmap_broadcast. Qed.






End MmapLiftMore.

Section Laws.

Variable P : Type.
Variable prim : P -> list (Val P) -> Result (Val P).

Lemma map_val_id (m : Val P) : map_val (fun x => x) m = m.
Proof.
  destruct m; simpl; trivial.
  - now destruct val.
  - now rewrite map_id.
Qed.

(** X10.  [map] on a [Box], [Maybe] or [Many] keeps the functor laws: the
    identity changes nothing, and two maps in a row are the map of the
    composition when the first function cannot fail; on a [Box] or a
    [Maybe] also when it can. *)
Theorem map_functor_laws (m : Val P) (c : Cls) :
  type_of m = Some c ->
  obj_map m (fun x => Ok x) = Ok m
  /\ (forall (h1 : Val P -> Val P) (h2 : Val P -> Result (Val P)),
        (m' <- obj_map m (fun x => Ok (h1 x)) ;; obj_map m' h2) =
        obj_map m (fun x => h2 (h1 x)))
  /\ (c <> Many ->
      forall h1 h2 : Val P -> Result (Val P),
        (m' <- obj_map m h1 ;; obj_map m' h2) =
        obj_map m (fun x => y <- h1 x ;; h2 y)).
Proof.
  intros Hm. split; [|split].
  - rewrite (obj_map_pure m (fun x => x) Hm). now rewrite map_val_id.
  - intros h1 h2. rewrite (obj_map_pure m h1 Hm). cbn [rbind].
    apply obj_map_map_val.
  - intros Hc h1 h2. destruct m; simpl in *; try discriminate.
    + unfold Box_map. destruct (h1 m); reflexivity.
    + destruct val as [x|]; simpl; trivial. destruct (h1 x); reflexivity.
    + congruence.
Qed.


Lemma flat_map_singleton {A : Type} (xs : list A) :
  flat_map (fun x => [x]) xs = xs.
Proof. induction xs; simpl; congruence. Qed.

Lemma obj_bind_wrap_right (cls : Cls) (m : Val P) :
  type_of m = Some cls -> obj_bind m (fun x => Ok (wrap cls x)) = Ok m.
Proof.
  intros Hm.
  rewrite (@obj_bind_leaves P m cls _ (fun x => [x]))
    by (trivial; intros; apply f_equal, wrap_of_leaves).
  rewrite flat_map_singleton.
  destruct m; simpl in *; try discriminate; injection Hm as <-; trivial.
  now destruct val.
Qed.





End Laws.

Section SequencerMore.

Variable P : Type.
Variable prim : P -> list (Val P) -> Result (Val P).

(** X14.  [Maybe()] and [Many()] stay what they are through any chain of
    [map], [bind] and [apply]: no function of the chain is called and no
    argument of [apply] is looked at. *)
Theorem empty_short_circuits (m : Val P) (ops : list (Op P)) :
  is_empty m = true -> foldM (run_op prim) m ops = Ok m.
Proof.
  intros Hm. induction ops as [|op ops IH]; trivial.
  cbn [foldM].
  assert (E : run_op prim m op = Ok m).
  { destruct m as [| | | |[x|]|[|x tup]| | | |]; try discriminate;
      destruct op; reflexivity. }
  rewrite E. exact IH.
Qed.

Lemma obj_bind_empty (m : Val P) (k : Val P -> Result (Val P)) :
  is_empty m = true -> obj_bind m k = Ok m.
Proof.
  destruct m as [| | | |[x|]|[|x tup]| | | |]; try discriminate; reflexivity.
Qed.

(** X15.  A do block or a loop that starts from [Maybe()] or [Many()] runs
    no line and no predicate and returns it; the loop needs no fuel for
    that. *)
Theorem do_loop_on_empty (m : Val P) (cls : Cls) (kwargs : list (Line P))
    (predicate : Val P -> Result bool) (fuel : nat) :
  is_empty m = true ->
  do cls m kwargs = Ok m /\ loop fuel cls predicate m kwargs = Ok m.
Proof.
  intros Hm.
  assert (Hnone : is_None m = false)
    by (destruct m; try discriminate; reflexivity).
  split.
  - unfold do. rewrite Hnone.
    induction kwargs as [|l kwargs IH]; trivial.
    cbn [foldM]. now rewrite obj_bind_empty.
  - unfold loop. rewrite Hnone. now apply obj_bind_empty.
Qed.

Lemma obj_map_not_None (m s : Val P) (h : Val P -> Result (Val P)) :
  obj_map m h = Ok s -> is_None s = false.
Proof.
  destruct m; simpl; try discriminate.
  - unfold Box_map. destruct (h m); simpl; try discriminate.
    now intros [= <-].
  - destruct val as [x|]; simpl; [destruct (h x); simpl|];
      try discriminate; now intros [= <-].
  - unfold Many_map. destruct (mapM h tup); simpl; try discriminate.
    now intros [= <-].
  - unfold Do_method. destruct (Do_getattribute state "map") as [v| |];
      simpl; try discriminate. destruct v; discriminate.
Qed.

Lemma do_line_not_None (l : Line P) (x s : Val P) :
  do_line l x = Ok s -> is_None s = false.
Proof.
  destruct l as [name line]. unfold do_line.
  destruct (line x) as [m| |]; simpl; try discriminate.
  apply obj_map_not_None.
Qed.

Lemma obj_bind_do_line_not_None (state s : Val P) (l : Line P) :
  obj_bind state (do_line l) = Ok s -> is_None s = false.
Proof.
  destruct state; simpl; try discriminate.
  - apply do_line_not_None.
  - destruct val; [apply do_line_not_None|]. now intros [= <-].
  - unfold Many_bind. destruct (Many_bind_gen _ _); simpl; try discriminate.
    now intros [= <-].
  - unfold Do_method. destruct (Do_getattribute state "bind") as [v| |];
      simpl; try discriminate. destruct v; discriminate.
Qed.

Lemma do_steps_not_None (kwargs : list (Line P)) :
  forall d s : Val P,
    is_None d = false ->
    foldM (fun state l => obj_bind state (do_line l)) d kwargs = Ok s ->
    is_None s = false.
Proof.
  induction kwargs as [|l kwargs IH]; intros d s Hd E; simpl in E.
  - congruence.
  - destruct (obj_bind d (do_line l)) as [d'| |] eqn:Ed; try discriminate.
    apply (IH d' s); trivial. now apply obj_bind_do_line_not_None with d l.
Qed.

(** X16.  A do block can be cut anywhere: running the first lines and then
    the others from the state reached is running them all. *)
Theorem do_splits (cls : Cls) (do_ : Val P) (kwargs1 kwargs2 : list (Line P)) :
  do cls do_ (kwargs1 ++ kwargs2) =
  (state <- do cls do_ kwargs1 ;; do cls state kwargs2).
Proof.
  unfold do at 1 2. rewrite foldM_app.
  set (d := if is_None do_ then wrap cls (VDo []) else do_).
  assert (Hd : is_None d = false)
    by (subst d; destruct do_; try reflexivity; now destruct cls).
  destruct (foldM _ d kwargs1) as [s| |] eqn:E; trivial.
  cbn [rbind]. unfold do.
  now rewrite (do_steps_not_None kwargs1 d Hd E).
Qed.

Lemma obj_bind_ext_in (m : Val P) (k k' : Val P -> Result (Val P)) :
  (forall a, In a (elems m) -> k a = k' a) -> obj_bind m k = obj_bind m k'.
Proof.
  intros E. destruct m; simpl in *; trivial.
  - apply E. auto.
  - destruct val; simpl in *; trivial. apply E. auto.
  - unfold Many_bind. f_equal.
    induction tup as [|x tup IH]; simpl; trivial.
    rewrite (E x), IH by auto with datatypes. reflexivity.
Qed.

(** X17.  [loop] tests the predicate before the first pass: when it is
    false on every record of the initial container, no line runs and the
    container comes back as it is. *)
Theorem loop_predicate_false_at_start (fuel : nat) (cls : Cls)
    (predicate : Val P -> Result bool) (do_ : Val P)
    (kwargs : list (Line P)) :
  type_of do_ = Some cls ->
  (forall s, In s (elems do_) -> predicate s = Ok false) ->
  loop (S fuel) cls predicate do_ kwargs = Ok do_.
Proof.
  intros Hd Hp. unfold loop.
  replace (is_None do_) with false by now destruct do_.
  rewrite (obj_bind_ext_in do_ _ (fun s => Ok (wrap cls s))).
  - now apply obj_bind_wrap_right.
  - intros s Hs. cbn [while_do]. now rewrite Hp.
Qed.

Lemma flat_map_list_prod {A B C : Type} (h : A -> B -> C)
    (xs : list A) (ys : list B) :
  flat_map (fun x => List.map (h x) ys) xs =
  List.map (fun p => h (fst p) (snd p)) (list_prod xs ys).
Proof.
  induction xs as [|x xs IH]; simpl; trivial.
  now rewrite map_app, map_map, IH.
Qed.

(** X24.  Over [Many], two lines that each return a fixed sequence make one
    record for every pair of their values, the values of the first line
    varying slowest: the do block enumerates the product in declaration
    order. *)
Theorem do_Many_enumerates_product (state : Dict P) (n1 n2 : string)
    (xs ys : list (Val P)) :
  n1 <> "self"%string -> n2 <> "self"%string ->
  dict_get state "self" = None ->
  do Many (VMany [VDo state])
     [(n1, fun _ => Ok (VMany xs)); (n2, fun _ => Ok (VMany ys))] =
  Ok (VMany (List.map
               (fun p => VDo (dict_set (dict_set state n1 (fst p)) n2 (snd p)))
               (list_prod xs ys))).
Proof.
  intros H1 H2 Hself. unfold do. cbn [is_None foldM obj_bind].
  unfold Many_bind at 1. cbn [Many_bind_gen].
  rewrite do_line_set by assumption. cbn [rbind obj_map].
  unfold Many_map. rewrite mapM_pure. cbn [rbind attr_tup].
  rewrite app_nil_r. cbn [obj_bind]. unfold Many_bind.
  rewrite (Many_bind_gen_leaves _ _
             (fun s => match s with
                       | VDo st => List.map (fun y => VDo (dict_set st n2 y)) ys
                       | _ => []
                       end)).
  - cbn [rbind]. do 2 f_equal.
    rewrite <- (flat_map_list_prod
                  (fun x y => VDo (dict_set (dict_set state n1 x) n2 y))).
    induction xs as [|x xs' IH]; simpl; trivial. now rewrite IH.
  - intros s Hs. apply in_map_iff in Hs. destruct Hs as (x & <- & _).
    rewrite do_line_set; trivial.
    + cbn [rbind obj_map]. unfold Many_map. now rewrite mapM_pure.
    + rewrite dict_get_set_other by congruence. assumption.
Qed.

End SequencerMore.

Section ManyMore.

Variable P : Type.
Variable prim : P -> list (Val P) -> Result (Val P).


(** X19.  Indexing a [Many] of length [n]: an index [0 <= i < n] gives the
    element at [i], and so does [i - n], counting from the end; an index
    below [-n] or from [n] on is an [IndexError]. *)
Theorem Many_getitem_index (tup : list (Val P)) (i : Z) :
  (0 <= i < Many_len tup ->
   exists x, nth_error tup (Z.to_nat i) = Some x
             /\ Many_getitem tup (VInt i) = Ok x
             /\ Many_getitem tup (VInt (i - Many_len tup)) = Ok x)
  /\ (i < - Many_len tup \/ Many_len tup <= i ->
      Many_getitem tup (VInt i) = Raise IndexError).
Proof.
  unfold Many_len, Many_getitem. split.
  - intros Hi.
    destruct (nth_error tup (Z.to_nat i)) as [x|] eqn:Ex.
    + exists x. split; trivial.
      destruct (Z.ltb_spec i 0); [lia|].
      destruct (Z.ltb_spec (i - Z.of_nat (List.length tup)) 0); [|lia].
      replace (i - Z.of_nat (List.length tup) + Z.of_nat (List.length tup))
        with i by lia.
      destruct (Z.ltb_spec i 0); [lia|].
      destruct (Z.leb_spec (Z.of_nat (List.length tup)) i); [lia|].
      simpl. now rewrite Ex.
    + apply nth_error_None in Ex. lia.
  - intros Hi.
    destruct (Z.ltb_spec i 0).
    + destruct (Z.ltb_spec (i + Z.of_nat (List.length tup)) 0); trivial.
      destruct Hi; lia.
    + destruct (Z.ltb_spec i 0); [lia|].
      destruct (Z.leb_spec (Z.of_nat (List.length tup)) i); trivial.
      destruct Hi; lia.
Qed.




End ManyMore.

Section FlattenMore.

Variable P : Type.

Lemma depth_other (a : Val P) (mon : Cls) :
  issubclass_type a mon = false -> depth mon a = O.
Proof.
  destruct a; simpl; trivial; unfold issubclass_type; simpl;
    intros ->; reflexivity.
Qed.

Lemma depth_flat (e : Val P) (mon : Cls) :
  type_of e = Some mon ->
  (forall a, In a (elems e) -> issubclass_type a mon = false) ->
  depth mon e = 1%nat.
Proof.
  destruct e; simpl; try discriminate; intros [= <-] Hel; simpl.
  - now rewrite depth_other by auto.
  - destruct val; trivial. now rewrite depth_other by (simpl in Hel; auto).
  - f_equal. induction tup as [|x tup IH]; simpl; trivial.
    rewrite depth_other, IH by auto with datatypes. reflexivity.
Qed.

Lemma leaves_flat (e : Val P) (mon : Cls) :
  type_of e = Some mon ->
  (forall a, In a (elems e) -> issubclass_type a mon = false) ->
  of_leaves mon (leaves mon e) = e.
Proof.
  intros He Hel. rewrite (leaves_elems e He).
  assert (E : flat_map (leaves mon) (elems e) = elems e).
  { induction (elems e) as [|x xs IH]; simpl; trivial.
    rewrite leaves_other, IH by auto with datatypes. reflexivity. }
  rewrite E. destruct e; simpl in *; try discriminate;
    injection He as <-; trivial.
  now destruct val.
Qed.

Lemma flatten_flat (fuel : nat) (mon : Cls) (e : Val P) :
  type_of e = Some mon ->
  (forall a, In a (elems e) -> issubclass_type a mon = false) ->
  flatten (S fuel) mon e = Ok e.
Proof.
  intros He Hel. rewrite flatten_leaves; trivial.
  - now rewrite leaves_flat.
  - rewrite depth_flat by assumption. lia.
Qed.

Lemma leaves_not_class (mon : Cls) (n : nat) :
  forall e : Val P,
    (depth mon e <= n)%nat ->
    forall l, In l (leaves mon e) -> issubclass_type l mon = false.
Proof.
  assert (Hself : forall e : Val P,
             issubclass_type e mon = false ->
             forall l, In l [e] -> issubclass_type l mon = false)
    by (intros e He l [<-|[]]; exact He).
  induction n as [|n IH]; intros e Hd l Hl.
  - destruct (issubclass_type e mon) eqn:Esub.
    + apply issubclass_type_of in Esub.
      destruct e; simpl in *; try discriminate; injection Esub as <-;
        simpl in Hd; lia.
    + rewrite (leaves_other e mon Esub) in Hl. now apply (Hself e).
  - destruct (issubclass_type e mon) eqn:Esub.
    + pose proof (issubclass_type_of _ _ Esub) as He.
      rewrite (leaves_elems e He) in Hl.
      apply in_flat_map in Hl. destruct Hl as (a & Ha & Hl).
      apply (IH a); trivial.
      pose proof (depth_elems e a He Ha). lia.
    + rewrite (leaves_other e mon Esub) in Hl. now apply (Hself e).
Qed.

(** X21.  [flatten] gives back unchanged a container of the class none of
    whose elements is of the class; and on any container of the class,
    given recursion depth for every layer, what it returns is such a
    container: of the class, with no element of the class, holding the
    elements found under the layers; so flattening the result once more
    returns it unchanged, and flattening twice is flattening once. *)
Theorem flatten_idempotent (fuel : nat) (mon : Cls) (e : Val P) :
  type_of e = Some mon ->
  ((forall a, In a (elems e) -> issubclass_type a mon = false) ->
   flatten (S fuel) mon e = Ok e)
  /\ ((depth mon e <= fuel)%nat ->
      exists r,
        flatten fuel mon e = Ok r
        /\ r = of_leaves mon (leaves mon e)
        /\ type_of r = Some mon
        /\ (forall a, In a (elems r) -> issubclass_type a mon = false)
        /\ flatten 1 mon r = Ok r
        /\ (r' <- flatten fuel mon e ;; flatten 1 mon r') =
           flatten fuel mon e).
Proof.
  intros He. split; [now apply flatten_flat|].
  intros Hd. exists (of_leaves mon (leaves mon e)).
  assert (Hclass : type_of (of_leaves mon (leaves mon e)) = Some mon)
    by now destruct mon.
  assert (Hflat : forall a, In a (elems (of_leaves mon (leaves mon e))) ->
                            issubclass_type a mon = false).
  { intros a Ha.
    assert (Hin : a = VNone \/ In a (leaves mon e)).
    { destruct mon; simpl in Ha.
      - destruct (leaves Box e); simpl in *; intuition.
      - destruct (leaves Maybe e); simpl in *; intuition.
      - now right. }
    destruct Hin as [->|Hin]; [reflexivity|].
    eapply leaves_not_class; eassumption. }
  assert (Hagain : flatten 1 mon (of_leaves mon (leaves mon e)) =
                   Ok (of_leaves mon (leaves mon e)))
    by now apply flatten_flat.
  rewrite flatten_leaves by assumption. cbn [rbind].
  repeat split; trivial.
Qed.

(** X22.  A field set in a record is the one read back under its name, the
    other fields read as before, and reading a name the record does not
    have is a [KeyError] of that name; this for the names other than [do],
    [__init__] and [__getattribute__]. *)
Theorem Do_field_round_trip (state : Dict P) (name : string) (x : Val P) :
  reserved name = false ->
  getattr (VDo (dict_set state name x)) name = Ok x
  /\ (forall k, k <> name ->
                getattr (VDo (dict_set state name x)) k =
                getattr (VDo state) k)
  /\ (dict_get state name = None ->
      getattr (VDo state) name = Raise (KeyError name)).
Proof.
  intros Hname. unfold getattr, Do_getattribute. fold (reserved name).
  rewrite Hname. split; [|split].
  - now rewrite dict_get_set_same.
  - intros k Hk. fold (reserved k). destruct (reserved k); trivial.
    now rewrite dict_get_set_other.
  - now intros ->.
Qed.

End FlattenMore.

Section FuncLaws.

Variable P : Type.
Variable prim : P -> list (Val P) -> Result (Val P).

(** X23.  At every input a [Func] keeps the functor and monad laws, with
    the failures of the functions included: mapping the identity changes
    nothing, two maps are the map of the composition, [wrap] is neutral for
    [bind] on both sides, [bind] is associative, and [apply] of a wrapped
    function is [map]. *)
Theorem Func_laws (self : Func P) (arg : Val P) :
  Func_map self (fun y => Ok y) arg = Func_call self arg
  /\ (forall h1 h2 : Val P -> Result (Val P),
        Func_map (Func_map self h1) h2 arg =
        Func_map self (fun y => z <- h1 y ;; h2 z) arg)
  /\ (forall (x : Val P) (k : Val P -> Result (Func P)),
        Func_bind (Func_wrap x) k arg = (h <- k x ;; Func_call h arg))
  /\ Func_bind self (fun y => Ok (Func_wrap y)) arg = Func_call self arg
  /\ (forall k1 k2 : Val P -> Result (Func P),
        Func_bind (Func_bind self k1) k2 arg =
        Func_bind self (fun y => h <- k1 y ;; Ok (Func_bind h k2)) arg)
  /\ (forall f : Val P,
        Func_apply prim (Func_wrap f) self arg =
        Func_map self (fun x => call prim f [x]) arg).
Proof.
  unfold Func_map, Func_bind, Func_apply, Func_wrap, Func_call.
  repeat split; intros; cbn [rbind];
    try (now destruct (self arg)).
  - destruct (self arg) as [y| |]; simpl; trivial.
    now destruct (k1 y).
Qed.

End FuncLaws.

(** ** The claims on the demonstration program *)

Import Example.

Lemma Many_apply_cartesian_witness :
  nth_error [VPrim succ; VPrim neg] 1 = Some (VPrim neg)
  /\ nth_error [VInt 1; VInt 2 : V] 0 = Some (VInt 1)
  /\ Many_apply sem [VPrim succ; VPrim neg] (ints [1; 2]) =
       Ok (ints [2; 3; -1; -2])
  /\ exists y, call sem (VPrim neg) [VInt 1] = Ok y
               /\ nth_error [VInt 2; VInt 3; VInt (-1); VInt (-2) : V]
                            (1 * List.length [VInt 1; VInt 2 : V] + 0) =
                  Some y.
Proof.
  split; [reflexivity|]. split; [reflexivity|]. split; [reflexivity|].
  apply (proj1 (proj2 (Many_apply_cartesian sem
                         [VPrim succ; VPrim neg] [VInt 1; VInt 2]))
           1%nat 0%nat (VPrim neg) (VInt 1));
    reflexivity.
Defined.

(** C1.  [mmap(1, 1)(f)(Many(10, 20), Many(1, 2))] with [f(x, y) = x - y]:
    the layers come out in argument order, but each element is [f(y, x)],
    because [_curry_call] ends in [f(x, *xs)] and so hands the last
    argument over first; [f] broadcast in argument order gives
    [Many(Many(9, 8), Many(19, 18))]. *)
Theorem mmap_passes_last_argument_first :
  transform (mmap sem [VInt 1; VInt 1]) (VPrim minus)
            [ints [10; 20]; ints [1; 2]] =
    Ok (VMany [ints [-9; -8]; ints [-19; -18]])
  /\ broadcast [1%nat; 1%nat] [ints [10; 20]; ints [1; 2]]
               (call sem (VPrim minus)) =
       Ok (VMany [ints [9; 8]; ints [19; 18]]).
Proof. split; reflexivity. Qed.

(** C2.  [un_curry(2)(curry(2)(f))(5, 3)] with [f(x, y) = x - y] is not
    [f(5, 3) = 2]: the loop of [_un_curry_call] calls the chain anew with
    every argument ([y = f(x)]), so the result is the closure that the last
    argument made. *)
Theorem un_curry_keeps_last_closure :
  un_curry sem 2 (curry 2 (VPrim minus)) [VInt 5; VInt 3] =
    Ok (VCurryCall (VPrim minus) (VInt 3) 2 [])
  /\ call sem (VPrim minus) [VInt 5; VInt 3] = Ok (VInt 2).
Proof. split; reflexivity. Qed.

(** C5.  [Many.lift(True, False)(f)(Many(0, 1), 2)] with [f(x, y) = x + y]
    is [Many(2, 3)]; and for any class, flags and arguments of the declared
    number, [lift] wraps the curried [f] and folds the arguments left to
    right, with [apply] for a true flag and with [map] of the partial
    application for a false one. *)
Theorem lift_wraps_curried_and_folds :
  transform (lift sem Many [true; false]) (VPrim plus)
            [ints [0; 1]; VInt 2] = Ok (ints [2; 3])
  /\ (forall (P : Type) (prim : P -> list (Val P) -> Result (Val P))
             (cls : Cls) (applicative_flags : list bool) (f : Val P)
             (args : list (Val P)),
        applicative_flags <> [] ->
        List.length args = List.length applicative_flags ->
        transform (lift prim cls applicative_flags) f args =
        foldM (lift_fold prim)
              (wrap cls (curry (len applicative_flags) f))
              (combine applicative_flags args)).
Proof.
  split; [reflexivity|].
  intros P prim cls flags f args Hne Hlen. unfold transform, lift.
  destruct flags as [|flag flags]; [contradiction|].
  assert (E : (len (flag :: flags) <=? 0) = false)
    by (apply Z.leb_gt; unfold len; simpl List.length; lia).
  rewrite E. cbn [rbind]. now apply lift_inner_fold.
Qed.

Lemma lift_wraps_curried_and_folds_witness :
  [true; false] <> []
  /\ List.length [ints [0; 1]; VInt 2] = List.length [true; false]
  /\ transform (lift sem Many [true; false]) (VPrim plus)
               [ints [0; 1]; VInt 2] =
       foldM (lift_fold sem)
             (wrap Many (curry (len [true; false]) (VPrim plus)))
             (combine [true; false] [ints [0; 1]; VInt 2]).
Proof.
  split; [discriminate|]. split; [reflexivity|].
  apply (proj2 lift_wraps_curried_and_folds); [discriminate|reflexivity].
Defined.

(** C6.  The do block of [main] projected on [z] is [Many(0, -1, -2, -3)];
    and in any do block the steps are bound in declaration order, and a
    step under a name that the record [s] does not have yet maps the value
    of its line into [s] with one more field at the end, of that name and
    value.  ([Do] takes no field named [self].) *)
Theorem do_binds_steps_in_order :
  main_do = Ok (ints [0; -1; -2; -3])
  /\ (forall (P : Type) (cls : Cls) (do_ : Val P) (kwargs : list (Line P))
             (l : Line P),
        do cls do_ (kwargs ++ [l]) =
        (state <- do cls do_ kwargs ;; obj_bind state (do_line l)))
  /\ (forall (P : Type) (name : string) (line : Val P -> Result (Val P))
             (state : Dict P),
        name <> "self"%string -> dict_get state "self" = None ->
        dict_get state name = None ->
        do_line (name, line) (VDo state) =
        (m <- line (VDo state) ;;
         obj_map m (fun x => Ok (VDo (state ++ [(name, x)]))))).
Proof.
  split; [reflexivity|]. split.
  - intros. apply do_snoc.
  - intros P name line state Hname Hself Hfresh.
    rewrite do_line_set by assumption. apply rbind_ext. intros m.
    apply obj_map_ext. intros x. now rewrite dict_set_fresh.
Qed.

Lemma do_binds_steps_in_order_witness :
  "y"%string <> "self"%string
  /\ dict_get [("x"%string, VInt 0 : V)] "self" = None
  /\ dict_get [("x"%string, VInt 0 : V)] "y" = None
  /\ do_line ("y"%string, fun _ => Ok (ints [0; 1]))
             (VDo [("x"%string, VInt 0)]) =
       (m <- Ok (ints [0; 1]) ;;
        obj_map m (fun x => Ok (VDo ([("x"%string, VInt 0)]
                                      ++ [("y"%string, x)])))).
Proof.
  split; [discriminate|]. split; [reflexivity|]. split; [reflexivity|].
  apply (proj2 (proj2 do_binds_steps_in_order) Fn "y"%string
           (fun _ => Ok (ints [0; 1])) [("x"%string, VInt 0)]);
    [discriminate|reflexivity|reflexivity].
Defined.

(** C7.  [flatten(Many, Many(0, Many(1, 2), Many(3, 4)))] is
    [Many(0, 1, 2, 3, 4)]; and on any value of the class [mon], [flatten]
    gives one flat container of that class with the elements found under
    the layers of [mon], in order, a value of another type being kept as
    it is. *)
Theorem flatten_joins_nested_layers :
  flatten 2 Many main_nested = Ok (ints [0; 1; 2; 3; 4])
  /\ (forall (P : Type) (fuel : nat) (mon : Cls) (expr : Val P),
        type_of expr = Some mon -> (depth mon expr <= fuel)%nat ->
        flatten fuel mon expr = Ok (of_leaves mon (leaves mon expr))).
Proof.
  split; [reflexivity|]. intros. now apply flatten_leaves.
Qed.

Lemma flatten_joins_nested_layers_witness :
  type_of main_nested = Some Many
  /\ (depth Many main_nested <= 2)%nat
  /\ flatten 2 Many main_nested =
       Ok (of_leaves Many (leaves Many main_nested)).
Proof.
  split; [reflexivity|]. split; [simpl; lia|].
  apply (proj2 flatten_joins_nested_layers); [reflexivity|simpl; lia].
Defined.

(** C8, as stated, fails: [mmap(-1)(f)(5)] with [f(x) = Many(x, x * 10)]
    has a negative depth and returns [Many(5, 50)]. *)
Lemma mmap_negative_depth_returns :
  invalid_depth (VInt (-1) : V) = true
  /\ transform (mmap sem [VInt (-1)]) (VPrim x_x10) [VInt 5] =
       Ok (VMany [VInt 5; VInt 50]).
Proof. split; reflexivity. Qed.

Lemma mmap_depth_not_validated_witness :
  (In (VStr "a" : V) [VInt 0; VStr "a"]
   /\ is_int (VStr "a" : V) = false
   /\ len [VInt 1; VInt 2 : V] = len [VInt 0; VStr "a" : V]
   /\ forall v, mmap_inner sem [VInt 0; VStr "a"] (VPrim minus)
                           [VInt 1; VInt 2] <> Ok v)
  /\ (is_int (VNone : V) = false
      /\ len [VInt 5 : V] = len [VNone : V]
      /\ mmap_inner sem [VNone] (VPrim x_x10) [VInt 5] = Raise TypeError)
  /\ (is_int (VStr "a" : V) = false
      /\ List.length [ints [1; 2]] = List.length [VInt 1 : V]
      /\ List.length (@nil V) = List.length (@nil V)
      /\ mmap_inner sem ([VInt 1] ++ VStr "a" :: []) (VPrim minus)
                    ([ints [1; 2]] ++ VInt 5 :: []) =
         (st <- foldM (mmap_step sem ([VInt 1] ++ VStr "a" :: [])
                                 ([ints [1; 2]] ++ VInt 5 :: []))
                      (0, curry (len ([VInt 1 : V] ++ VStr "a" :: []))
                                (VPrim minus))
                      (seq 0 (List.length [VInt 1 : V])) ;;
          Raise TypeError)).
Proof.
  destruct (mmap_depth_not_validated sem) as (A & B & C).
  split; [|split].
  - split; [simpl; auto|]. split; [reflexivity|]. split; [reflexivity|].
    apply A with (lev := VStr "a"); [simpl; auto|reflexivity|reflexivity].
  - split; [reflexivity|]. split; [reflexivity|].
    apply B; reflexivity.
  - split; [reflexivity|]. split; [reflexivity|]. split; [reflexivity|].
    apply (C [VInt 1] [] [ints [1; 2]] [] (VPrim minus) (VStr "a") (VInt 5));
      reflexivity.
Defined.

(** C9.  A step whose name the record already has does not make [do]
    raise: when the line returns a container of the class, the result holds
    for each of its values the record with that value under the name, the
    other fields as they were and no field more.  (A record has no field
    [self]: [Do] cannot be built with one.) *)
Theorem do_duplicate_name_overwrites (P : Type) (cls : Cls)
    (state : Dict P) (name : string) (line : Val P -> Result (Val P))
    (old m : Val P) :
  dict_get state "self" = None ->
  dict_get state name = Some old ->
  line (VDo state) = Ok m ->
  type_of m = Some cls ->
  do cls (wrap cls (VDo state)) [(name, line)] =
    Ok (map_val (fun x => VDo (dict_set state name x)) m)
  /\ forall x : Val P,
       dict_get (dict_set state name x) name = Some x
       /\ (forall k, k <> name ->
                     dict_get (dict_set state name x) k = dict_get state k)
       /\ keys (dict_set state name x) = keys state.
Proof.
  intros Hself Hold Hline Hm. split.
  - assert (Hname : name <> "self"%string) by congruence.
    unfold do.
    replace (is_None (wrap cls (VDo state))) with false by now destruct cls.
    cbn [foldM].
    rewrite (@obj_bind_wrap P cls (VDo state)
               (map_val (fun x => VDo (dict_set state name x)) m)).
    + reflexivity.
    + now rewrite type_of_map_val.
    + rewrite do_line_set, Hline by assumption. cbn [rbind].
      now apply obj_map_pure with (c := cls).
  - intros x. split; [apply dict_get_set_same|]. split.
    + intros k Hk. now apply dict_get_set_other.
    + now apply keys_dict_set_present with old.
Qed.

Lemma do_duplicate_name_overwrites_witness :
  dict_get [("x"%string, VInt 1 : V); ("y"%string, VInt 2)] "self" = None
  /\ dict_get [("x"%string, VInt 1 : V); ("y"%string, VInt 2)] "x" =
       Some (VInt 1)
  /\ do Many (wrap Many (VDo [("x"%string, VInt 1 : V); ("y"%string, VInt 2)]))
        [("x"%string, fun _ => Ok (ints [7; 8]))] =
       Ok (VMany [VDo [("x"%string, VInt 7); ("y"%string, VInt 2)];
                  VDo [("x"%string, VInt 8); ("y"%string, VInt 2)]]).
Proof.
  split; [reflexivity|]. split; [reflexivity|].
  apply (@do_duplicate_name_overwrites Fn Many
           [("x"%string, VInt 1); ("y"%string, VInt 2)] "x"%string
           (fun _ => Ok (ints [7; 8])) (VInt 1) (ints [7; 8]));
    reflexivity.
Defined.

(** ** The further properties on the demonstration program *)

Lemma curry_partial_application_witness :
  (3 <= 0 \/ len [VInt 1; VInt 2 : V] < 3)
  /\ call_chain sem (curry 3 (VPrim g)) [VInt 1; VInt 2] =
       Ok (clo 3 (VPrim g) [VInt 1; VInt 2]).
Proof.
  split; [right; reflexivity|].
  apply curry_partial_application. right. reflexivity.
Defined.

Lemma un_curry_returns_call_on_last_witness :
  (len [VInt 1 : V] <> 2
   /\ un_curry sem 2 (VPrim succ) [VInt 1] =
        Raise (ArityMismatch 2 (len [VInt 1 : V])))
  /\ (len ([VInt 5] ++ [VInt 3 : V]) = 2
      /\ mapM (fun a => call sem (VPrim succ) [a]) [VInt 5] = Ok [VInt 6]
      /\ un_curry sem 2 (VPrim succ) ([VInt 5] ++ [VInt 3]) =
           call sem (VPrim succ) [VInt 3])
  /\ (0 = 0 /\ un_curry sem 0 (VPrim succ) [] = Ok (VPrim succ)).
Proof.
  destruct (un_curry_returns_call_on_last sem 2 (VPrim succ)) as (A & B & _).
  destruct (un_curry_returns_call_on_last sem 0 (VPrim succ)) as (_ & _ & C).
  split; [|split].
  - split; [discriminate|]. apply A. discriminate.
  - split; [reflexivity|]. split; [reflexivity|].
    apply B with (ys := [VInt 6]); reflexivity.
  - split; [reflexivity|]. apply C. reflexivity.
Defined.

Lemma mmap_lift_count_errors_witness :
  ([VInt 1 : V] <> []
   /\ len [VInt 1; VInt 2 : V] <> len [VInt 1 : V]
   /\ transform (mmap sem [VInt 1]) (VPrim succ) [VInt 1; VInt 2] =
        Raise (ArityMismatch 1 2))
  /\ ([true] <> []
      /\ len (@nil V) <> len [true]
      /\ transform (lift sem Many [true]) (VPrim succ) [] =
           Raise (ArityMismatch 1 0)).
Proof.
  destruct (mmap_lift_count_errors sem) as (_ & _ & A & B).
  split.
  - split; [discriminate|]. split; [discriminate|].
    apply (A [VInt 1]); discriminate.
  - split; [discriminate|]. split; [discriminate|].
    apply (B Many [true]); discriminate.
Defined.

Lemma mmap_one_argument_witness :
  (ssize_min <= 1 <= list_max
   /\ transform (mmap sem [VInt 1]) (VPrim succ) [ints [1; 2]] =
        nest_map (Z.to_nat 1) (ints [1; 2])
                 (fun a => call sem (VPrim succ) [a]))
  /\ (0 < 2 <= list_max /\ is_plain (VInt 7 : V) = true
      /\ transform (mmap sem [VInt 2]) (VPrim succ) [VInt 7] =
           Raise AttributeError)
  /\ (list_max < list_max + 1 <= ssize_max
      /\ transform (mmap sem [VInt (list_max + 1)]) (VPrim succ) [VInt 7] =
           Raise MemoryError)
  /\ ((ssize_min - 1 < ssize_min \/ ssize_max < ssize_min - 1)
      /\ transform (mmap sem [VInt (ssize_min - 1)]) (VPrim succ) [VInt 7] =
           Raise OverflowError).
Proof.
  assert (H1 : ssize_min <= 1 <= list_max)
    by (unfold ssize_min, list_max; lia).
  assert (H2 : 0 < 2 <= list_max) by (unfold list_max; lia).
  assert (H3 : list_max < list_max + 1 <= ssize_max)
    by (unfold list_max, ssize_max; lia).
  assert (H4 : ssize_min - 1 < ssize_min \/ ssize_max < ssize_min - 1)
    by (left; lia).
  split; [|split; [|split]].
  - split; [exact H1|].
    exact (proj1 (mmap_one_argument sem 1 (VPrim succ) (ints [1; 2])) H1).
  - split; [exact H2|]. split; [reflexivity|].
    exact (proj1 (proj2 (mmap_one_argument sem 2 (VPrim succ) (VInt 7)))
             H2 eq_refl).
  - split; [exact H3|].
    exact (proj1 (proj2 (proj2 (mmap_one_argument sem (list_max + 1)
                                  (VPrim succ) (VInt 7)))) H3).
  - split; [exact H4|].
    exact (proj2 (proj2 (proj2 (mmap_one_argument sem (ssize_min - 1)
                                  (VPrim succ) (VInt 7)))) H4).
Defined.

Lemma mmap_depths_zero_witness :
  [ints [1; 2]; VInt 5] <> []
  /\ transform (mmap sem (List.map (fun _ => VInt 0) [ints [1; 2]; VInt 5]))
               (VPrim minus) [ints [1; 2]; VInt 5] =
       call sem (VPrim minus) (last_first [ints [1; 2]; VInt 5]).
Proof.
  split; [discriminate|]. apply mmap_depths_zero. discriminate.
Defined.

Lemma mmap_broadcasts_last_first_witness :
  [1%nat; 0%nat] <> []
  /\ Z.of_nat (list_sum [1%nat; 0%nat]) <= list_max
  /\ Forall2 (fun n (x : V) => nested n x = true)
             [1%nat; 0%nat] [ints [10; 20]; VInt 1]
  /\ transform (mmap sem (List.map (depth_val Fn) [1%nat; 0%nat]))
               (VPrim minus) [ints [10; 20]; VInt 1] =
       broadcast [1%nat; 0%nat] [ints [10; 20]; VInt 1]
                 (fun leaves => call sem (VPrim minus) (last_first leaves)).
Proof.
  assert (H : Forall2 (fun n (x : V) => nested n x = true)
                      [1%nat; 0%nat] [ints [10; 20]; VInt 1])
    by (repeat constructor).
  assert (Hsum : Z.of_nat (list_sum [1%nat; 0%nat]) <= list_max)
    by (unfold list_max; simpl; lia).
  split; [discriminate|]. split; [exact Hsum|]. split; [exact H|].
  apply mmap_broadcasts_last_first; [discriminate|exact Hsum|exact H].
Defined.



Lemma map_functor_laws_witness :
  type_of (VBox (VInt 1) : V) = Some Box
  /\ Box <> Many
  /\ obj_map (VBox (VInt 1) : V) (fun x => Ok x) = Ok (VBox (VInt 1))
  /\ (m' <- obj_map (VBox (VInt 1)) (fun x => call sem (VPrim succ) [x]) ;;
      obj_map m' (fun x => call sem (VPrim neg) [x])) =
     obj_map (VBox (VInt 1))
       (fun x => y <- call sem (VPrim succ) [x] ;; call sem (VPrim neg) [y]).
Proof.
  destruct (@map_functor_laws Fn (VBox (VInt 1)) Box eq_refl) as (A & _ & C).
  split; [reflexivity|]. split; [discriminate|]. split; [exact A|].
  apply C. discriminate.
Defined.




Lemma empty_short_circuits_witness :
  is_empty (VMaybe None : V) = true
  /\ foldM (run_op sem) (VMaybe None)
       [OpMap (fun x => call sem (VPrim succ) [x]);
        OpApply (VInt 5); OpBind (fun _ => Raise TypeError)] =
     Ok (VMaybe None).
Proof.
  split; [reflexivity|]. apply empty_short_circuits. reflexivity.
Defined.

Lemma do_loop_on_empty_witness :
  is_empty (VMany [] : V) = true
  /\ do Many (VMany [] : V) [("x"%string, fun _ => Raise TypeError)] =
       Ok (VMany [])
  /\ loop 0 Many (fun _ => Ok true) (VMany [] : V)
       [("x"%string, fun _ => Raise TypeError)] = Ok (VMany []).
Proof.
  split; [reflexivity|]. apply do_loop_on_empty. reflexivity.
Defined.

Lemma loop_predicate_false_at_start_witness :
  type_of (VMany [VDo [("x"%string, VInt 1)]] : V) = Some Many
  /\ (forall s, In s (elems (VMany [VDo [("x"%string, VInt 1 : V)]])) ->
                (fun _ : V => Ok false) s = Ok false)
  /\ loop 1 Many (fun _ => Ok false) (VMany [VDo [("x"%string, VInt 1 : V)]])
       [("x"%string, fun _ => Raise TypeError)] =
     Ok (VMany [VDo [("x"%string, VInt 1)]]).
Proof.
  split; [reflexivity|]. split; [reflexivity|].
  apply loop_predicate_false_at_start; reflexivity.
Defined.

Lemma do_Many_enumerates_product_witness :
  "x"%string <> "self"%string /\ "y"%string <> "self"%string
  /\ dict_get (@nil (string * V)) "self" = None
  /\ do Many (VMany [VDo []])
       [("x"%string, fun _ => Ok (ints [0; 2]));
        ("y"%string, fun _ => Ok (ints [0; 1]))] =
     Ok (VMany (List.map
                  (fun p => VDo (dict_set (dict_set [] "x" (fst p))
                                          "y" (snd p)))
                  (list_prod [VInt 0; VInt 2] [VInt 0; VInt 1]))).
Proof.
  split; [discriminate|]. split; [discriminate|]. split; [reflexivity|].
  apply (@do_Many_enumerates_product Fn [] "x"%string "y"%string
           [VInt 0; VInt 2] [VInt 0; VInt 1]);
    [discriminate|discriminate|reflexivity].
Defined.

Lemma Many_getitem_index_witness :
  (0 <= 1 < Many_len [VInt 7; VInt 8; VInt 9 : V]
   /\ exists x, nth_error [VInt 7; VInt 8; VInt 9 : V] (Z.to_nat 1) = Some x
                /\ Many_getitem [VInt 7; VInt 8; VInt 9] (VInt 1) = Ok x
                /\ Many_getitem [VInt 7; VInt 8; VInt 9]
                     (VInt (1 - Many_len [VInt 7; VInt 8; VInt 9 : V])) =
                   Ok x)
  /\ ((-4 < - Many_len [VInt 7; VInt 8; VInt 9 : V]
       \/ Many_len [VInt 7; VInt 8; VInt 9 : V] <= -4)
      /\ Many_getitem [VInt 7; VInt 8; VInt 9 : V] (VInt (-4)) =
           Raise IndexError).
Proof.
  split.
  - assert (H : 0 <= 1 < Many_len [VInt 7; VInt 8; VInt 9 : V])
      by (unfold Many_len; simpl; lia).
    split; [exact H|].
    exact (proj1 (Many_getitem_index [VInt 7; VInt 8; VInt 9 : V] 1) H).
  - assert (H : -4 < - Many_len [VInt 7; VInt 8; VInt 9 : V]
                \/ Many_len [VInt 7; VInt 8; VInt 9 : V] <= -4)
      by (left; unfold Many_len; simpl; lia).
    split; [exact H|].
    exact (proj2 (Many_getitem_index [VInt 7; VInt 8; VInt 9 : V] (-4)) H).
Defined.


Lemma flatten_idempotent_witness :
  (type_of (ints [1; 2]) = Some Many
   /\ (forall a, In a (elems (ints [1; 2])) ->
                 issubclass_type a Many = false)
   /\ flatten 1 Many (ints [1; 2]) = Ok (ints [1; 2]))
  /\ (type_of main_nested = Some Many
      /\ (depth Many main_nested <= 2)%nat
      /\ exists r,
           flatten 2 Many main_nested = Ok r
           /\ r = of_leaves Many (leaves Many main_nested)
           /\ type_of r = Some Many
           /\ (forall a, In a (elems r) -> issubclass_type a Many = false)
           /\ flatten 1 Many r = Ok r
           /\ (r' <- flatten 2 Many main_nested ;; flatten 1 Many r') =
              flatten 2 Many main_nested).
Proof.
  assert (H : forall a, In a (elems (ints [1; 2])) ->
                        issubclass_type a Many = false)
    by (intros a [<-|[<-|[]]]; reflexivity).
  split.
  - split; [reflexivity|]. split; [exact H|].
    exact (proj1 (@flatten_idempotent Fn 0 Many (ints [1; 2]) eq_refl) H).
  - split; [reflexivity|]. split; [simpl; lia|].
    apply (proj2 (@flatten_idempotent Fn 2 Many main_nested eq_refl)).
    simpl. lia.
Defined.

Lemma Do_field_round_trip_witness :
  reserved "x" = false
  /\ getattr (VDo (dict_set [("y"%string, VInt 2 : V)] "x" (VInt 1))) "x" =
       Ok (VInt 1)
  /\ dict_get [("y"%string, VInt 2 : V)] "x" = None
  /\ getattr (VDo [("y"%string, VInt 2 : V)]) "x" = Raise (KeyError "x").
Proof.
  destruct (@Do_field_round_trip Fn [("y"%string, VInt 2)] "x"%string
              (VInt 1) eq_refl) as (A & _ & C).
  split; [reflexivity|]. split; [exact A|]. split; [reflexivity|].
  apply C. reflexivity.
Defined.
